(** * ktsignal: a shallow embedding of [include/ktsignal.hpp]

    The header defines one class template, [ktsignal_impl<FuncSig,
    thread_safe, emit_thread_safe>], with its nested connection handles and
    its result iterator.  This development embeds it as follows.

    - The registry [slots_] is a [std::list]: its iterators are node
      identities that stay valid while other nodes come and go.  It is an
      association list from node identities to slots, in list order; a
      counter hands out the identities ([next_node]).
    - A slot is a [std::function<FuncSig>].  It is a function from the
      argument object it receives and from the state of the caller's world to
      a [slot_effect]: the state it leaves its parameter in, the new world,
      and whether it returned or threw.  Slots act on the world only: a slot
      that connects to, disconnects from or emits the very signal that is
      invoking it is outside this model, and so is a callable that keeps
      state of its own inside the [std::function].
    - The caller's argument object is passed along explicitly.  How a slot's
      parameter is initialised from it (copied, moved from, bound by
      reference) follows from [FuncSig] and from the value category of the
      argument; [moved_from] says what a move leaves behind.  An argument
      object outlives the call of [emit] that it is passed to; the range of
      [emit_iterate] stores references only, and [referent] says whether the
      objects they refer to outlive the range.
    - The objects of type [ktsignal_connection] live in a store, addressed
      by handles, since [disconnect], the move constructor and the
      destructor mutate them in place.  The signal outlives them.
    - Operations are computations in a state-and-fault monad [M]; a C++
      exception, a call of an empty [std::function] and undefined behaviour
      are faults, and the state reached when the fault occurs is kept.
    - Every operation appends the locks it takes and releases, the nodes it
      inserts and erases and the slots it invokes to an event [trace].
    - For the locking policies, threads run the same statements one at a
      time in any interleaving, on a mutex that behaves as
      [std::shared_mutex] does. *)

From Stdlib Require Import ZArith Lia String.
From stdpp Require Import base option list gmap.

Set Default Proof Using "Type".

(** ** Template parameters and the locking policy (lines 12-23, 178-183) *)

Record policy := { thread_safe : bool; emit_thread_safe : bool }.

Inductive mutex_kind := shared_mutex | empty_mutex.
Inductive lock_kind := unique_lock | shared_lock.

(** [using mutex_type = std::conditional_t<thread_safe, std::shared_mutex, empty_mutex>] *)
Definition mutex_type (p : policy) : mutex_kind :=
  if thread_safe p then shared_mutex else empty_mutex.

(** [using emit_locker = std::conditional_t<emit_thread_safe, std::unique_lock<mutex_type>, std::shared_lock<mutex_type>>] *)
Definition emit_locker (p : policy) : lock_kind :=
  if emit_thread_safe p then unique_lock else shared_lock.

Definition ktsignal : policy := {| thread_safe := false; emit_thread_safe := false |}.
Definition ktsignal_threadsafe : policy := {| thread_safe := true; emit_thread_safe := false |}.
Definition ktsignal_threadsafe_emit : policy := {| thread_safe := true; emit_thread_safe := true |}.

(** What a lock guard does to the mutex it is built on: [std::unique_lock]
    calls [lock], [std::shared_lock] calls [lock_shared]; on an
    [empty_mutex] both are empty functions. *)
Inductive access := Exclusive | Shared.

Definition acquires (m : mutex_kind) (l : lock_kind) : option access :=
  match m, l with
  | empty_mutex, _ => None
  | shared_mutex, unique_lock => Some Exclusive
  | shared_mutex, shared_lock => Some Shared
  end.

#[global] Instance access_eq_dec : EqDecision access.
Proof. solve_decision. Defined.

(** ** Argument passing

    [emit] and the iterator hand the caller's argument object to each slot.
    What the slot's parameter is initialised from depends on the parameter
    type in [FuncSig] and on the value category of the argument. *)

Inductive param_kind := by_value | by_reference.
Inductive value_category := lvalue | rvalue.
Inductive init_kind := copy_init | move_init | ref_bind.

Definition initialisation (k : param_kind) (c : value_category) : init_kind :=
  match k, c with
  | by_value, lvalue => copy_init
  | by_value, rvalue => move_init
  | by_reference, _ => ref_bind
  end.

(** What the references that [emit_iterate] stores refer to: an object of
    the caller that outlives the range, or a temporary of the
    full-expression that makes the range, such as the [7] of
    [sig.emit_iterate(7)]. *)
Inductive referent := caller_object | temporary.

(** A temporary is destroyed at the end of the full-expression that makes
    the range, which is before the caller's loop calls [begin]. *)
Definition alive_in_loop (o : referent) : bool :=
  match o with
  | caller_object => true
  | temporary => false
  end.

Inductive slot_iterator := at_node (n : nat) | past_the_end.

#[global] Instance slot_iterator_eq_dec : EqDecision slot_iterator.
Proof. solve_decision. Defined.

(** The target of a connection's [erase_func]: the lambda built by [connect]
    (lines 57-60), which captures [erase_iter], or the empty lambda that
    [disconnect] stores (line 34). *)
Inductive closure := erase_lambda (erase_iter : nat) | empty_lambda.

(** A [std::function<void()>] holds a target or is empty. *)
Record ktsignal_connection := {
  erase_func : option closure;
  scoped : bool   (* the object is a [ktsignal_scoped_connection] *)
}.

(** The state [std::function]'s move constructor leaves its source in is
    unspecified by the standard.  libstdc++, libc++ and MSVC leave it empty;
    the other value an implementation could leave is the target itself. *)
Inductive moved_from_function := leaves_empty | leaves_target.

(** One instantiation of the class template, together with what the model
    needs to know about the types in [FuncSig]. *)
Class instantiation := {
  args_type : Type;        (* the argument object(s) of a call *)
  result_type : Type;      (* the result type of [FuncSig] *)
  world_type : Type;       (* the caller's world, on which slots act *)
  exn : Type;              (* what a slot can throw *)
  (* the state an argument is left in when another is move-constructed from it *)
  moved_from : args_type → args_type;
  (* how [FuncSig] takes its parameter *)
  FuncSig_param : param_kind;
  (* [thread_safe] and [emit_thread_safe] *)
  locking : policy
}.

Section Signal.

Context {Σ : instantiation}.

Local Abbreviation T := args_type.
Local Abbreviation R := result_type.
Local Abbreviation W := world_type.
Local Abbreviation p := locking.

Inductive outcome := Returned (r : R) | Thrown (e : exn).

Record slot_effect := {
  param_after : T;
  world_after : W;
  result : outcome
}.

Definition slot_type := T → W → slot_effect.
Local Abbreviation slot_container := (list (nat * slot_type)).

Inductive event :=
| EvLock (a : access)
| EvUnlock (a : access)
| EvEmplace (node : nat)
| EvErase (node : nat)
| EvInvoke (node : nat) (param : T).

Record machine := {
  slots_ : slot_container;
  next_node : nat;
  conns : gmap nat ktsignal_connection;
  next_conn : nat;
  world : W;
  trace : list event
}.

Definition new_signal (w : W) : machine :=
  {| slots_ := []; next_node := 0; conns := ∅; next_conn := 0;
     world := w; trace := [] |}.

Definition set_slots (l : slot_container) (m : machine) : machine :=
  {| slots_ := l; next_node := next_node m; conns := conns m;
     next_conn := next_conn m; world := world m; trace := trace m |}.
Definition set_next_node (n : nat) (m : machine) : machine :=
  {| slots_ := slots_ m; next_node := n; conns := conns m;
     next_conn := next_conn m; world := world m; trace := trace m |}.
Definition set_conns (cs : gmap nat ktsignal_connection) (m : machine) : machine :=
  {| slots_ := slots_ m; next_node := next_node m; conns := cs;
     next_conn := next_conn m; world := world m; trace := trace m |}.
Definition set_next_conn (n : nat) (m : machine) : machine :=
  {| slots_ := slots_ m; next_node := next_node m; conns := conns m;
     next_conn := n; world := world m; trace := trace m |}.
Definition set_world (w : W) (m : machine) : machine :=
  {| slots_ := slots_ m; next_node := next_node m; conns := conns m;
     next_conn := next_conn m; world := w; trace := trace m |}.
Definition log (e : event) (m : machine) : machine :=
  {| slots_ := slots_ m; next_node := next_node m; conns := conns m;
     next_conn := next_conn m; world := world m; trace := trace m ++ [e] |}.

(** *** The monad of operations *)

Inductive fault :=
| slot_exception (e : exn)   (* an exception thrown by a slot *)
| bad_function_call          (* an empty [std::function] was called *)
| undefined_behaviour        (* an invalid iterator or a dead object was used *)
| terminate.                 (* an exception left a destructor *)

Inductive res (X : Type) := Ok (x : X) | Fault (f : fault).
Arguments Ok {X} x.
Arguments Fault {X} f.

Definition M (X : Type) : Type := machine → machine * res X.

Definition ret {X} (x : X) : M X := λ m, (m, Ok x).
Definition throw {X} (f : fault) : M X := λ m, (m, Fault f).
Definition bind {X Y} (c : M X) (k : X → M Y) : M Y := λ m,
  match c m with
  | (m', Ok x) => k x m'
  | (m', Fault f) => (m', Fault f)
  end.

Notation "x <- c ;; k" := (bind c (λ x, k))
  (at level 100, c at next level, right associativity).
Notation "c ;;; k" := (bind c (λ _, k))
  (at level 100, right associativity).

(** A lock guard: the constructor locks, the destructor unlocks, also when
    the body is left by an exception. *)
Definition lock_guard {X} (l : lock_kind) (body : M X) : M X := λ m,
  match acquires (mutex_type p) l with
  | Some a => let '(m', r) := body (log (EvLock a) m) in (log (EvUnlock a) m', r)
  | None => body m
  end.

(** *** The registry *)

Definition nodes (l : slot_container) : list nat := l.*1.

(** [slots_.emplace(slots_.end(), std::move(slot))] *)
Definition emplace_back (slot : slot_type) : M nat := λ m,
  let node := next_node m in
  (log (EvEmplace node)
     (set_next_node (S node) (set_slots (slots_ m ++ [(node, slot)]) m)),
   Ok node).

Fixpoint unlink (node : nat) (l : slot_container) : slot_container :=
  match l with
  | [] => []
  | (n, f) :: l' => if decide (n = node) then l' else (n, f) :: unlink node l'
  end.

(** [slots_.erase(erase_iter)]; erasing through an iterator that does not
    point into the list is undefined. *)
Definition erase (erase_iter : nat) : M unit := λ m,
  if decide (erase_iter ∈ nodes (slots_ m))
  then (log (EvErase erase_iter) (set_slots (unlink erase_iter (slots_ m)) m), Ok ())
  else (m, Fault undefined_behaviour).

(** *** Connections (lines 29-50) *)

Definition load (c : nat) : M ktsignal_connection := λ m,
  match conns m !! c with
  | Some conn => (m, Ok conn)
  | None => (m, Fault undefined_behaviour)
  end.
Definition store (c : nat) (conn : ktsignal_connection) : M unit := λ m,
  (set_conns (<[c := conn]> (conns m)) m, Ok ()).
Definition construct (conn : ktsignal_connection) : M nat := λ m,
  let c := next_conn m in
  (set_next_conn (S c) (set_conns (<[c := conn]> (conns m)) m), Ok c).
Definition release (c : nat) : M unit := λ m,
  (set_conns (delete c (conns m)) m, Ok ()).

Definition call_closure (f : closure) : M unit :=
  match f with
  | erase_lambda erase_iter => lock_guard unique_lock (erase erase_iter)
  | empty_lambda => ret ()
  end.

(** [std::function::operator()] *)
Definition call (f : option closure) : M unit :=
  match f with
  | Some target => call_closure target
  | None => throw bad_function_call
  end.

(** [void disconnect() { erase_func(); erase_func = []() {}; }] *)
Definition disconnect (c : nat) : M unit :=
  conn <- load c;;
  call (erase_func conn);;;
  store c {| erase_func := Some empty_lambda; scoped := scoped conn |}.

(** [ktsignal_connection connect(slot_type slot)] (lines 52-62) *)
Definition connect (slot : slot_type) : M nat :=
  lock_guard unique_lock (
    erase_iter <- emplace_back slot;;
    construct {| erase_func := Some (erase_lambda erase_iter); scoped := false |}).

(** [ktsignal_scoped_connection scoped_connect(slot_type slot)] (lines 63-73) *)
Definition scoped_connect (slot : slot_type) : M nat :=
  lock_guard unique_lock (
    erase_iter <- emplace_back slot;;
    construct {| erase_func := Some (erase_lambda erase_iter); scoped := true |}).

(** The defaulted move constructors (lines 38, 49) move [erase_func]. *)
Definition residue (mf : moved_from_function) (f : option closure) : option closure :=
  match mf with
  | leaves_empty => None
  | leaves_target => f
  end.

Definition move_construct (mf : moved_from_function) (src : nat) : M nat :=
  conn <- load src;;
  store src {| erase_func := residue mf (erase_func conn); scoped := scoped conn |};;;
  construct conn.

(** Destructors are [noexcept]: an exception that leaves one ends the
    program. *)
Definition noexcept {X} (body : M X) : M X := λ m,
  match body m with
  | (m', Fault (slot_exception _)) | (m', Fault bad_function_call) => (m', Fault terminate)
  | r => r
  end.

(** [~ktsignal_scoped_connection() { ktsignal_connection::disconnect(); }];
    the destructor of [ktsignal_connection] itself is trivial. *)
Definition destroy (c : nat) : M unit :=
  conn <- load c;;
  noexcept (if scoped conn then disconnect c else ret ());;;
  release c.

(** *** Emission (lines 84-90) *)

Definition args_after (i : init_kind) (args : T) (eff : slot_effect) : T :=
  match i with
  | copy_init => args
  | move_init => moved_from args
  | ref_bind => param_after eff
  end.

(** One call [f(args)] of the slot stored in [node]; it yields the state
    of the caller's argument object after the call and the slot's result. *)
Definition invoke (node : nat) (f : slot_type) (i : init_kind) (args : T) : M (T * R) := λ m,
  let eff := f args (world m) in
  let m' := set_world (world_after eff) (log (EvInvoke node args) m) in
  match result eff with
  | Returned r => (m', Ok (args_after i args eff, r))
  | Thrown e => (m', Fault (slot_exception e))
  end.

(** [for (auto& f : slots_) f(std::forward<Args>(args)...);]
    Slots do not reach the registry, so the loop visits the list as it is
    when the loop starts. *)
Fixpoint emit_loop (l : slot_container) (c : value_category) (args : T) : M T :=
  match l with
  | [] => ret args
  | (node, f) :: l' =>
      x <- invoke node f (initialisation FuncSig_param c) args;;
      emit_loop l' c x.1
  end.

Definition emit (c : value_category) (args : T) : M T :=
  lock_guard (emit_locker p) (λ m, emit_loop (slots_ m) c args m).

(** *** Result iteration (lines 92-171)

    A [signal_iterator] holds a list iterator and references to the mutex
    and to the tuple of argument references; the references are the machine
    and the caller's argument object. *)

Record signal_iterator := { iter_ : slot_iterator }.

Definition first_position (l : slot_container) : slot_iterator :=
  match l with
  | [] => past_the_end
  | (n, _) :: _ => at_node n
  end.

Fixpoint slot_at (node : nat) (l : slot_container) : option slot_type :=
  match l with
  | [] => None
  | (n, f) :: l' => if decide (n = node) then Some f else slot_at node l'
  end.

Fixpoint successor (node : nat) (l : slot_container) : option slot_iterator :=
  match l with
  | [] => None
  | (n, _) :: l' => if decide (n = node) then Some (first_position l') else successor node l'
  end.

(** An [iterate] holds references to the registry and to the mutex, which
    are in the machine, and [std::tuple<CallArgs&&...> stored_args], a tuple
    of references to the caller's arguments (lines 150-166): [refers_to]
    says what they refer to, [stored_args] is the state of these objects
    when the range is made. *)
Record iterate := { stored_args : T; refers_to : referent }.

(** [iterate<Args...> emit_iterate(Args&&... args)] (lines 168-171), called
    with arguments [args] that are, or are not, temporaries. *)
Definition emit_iterate (o : referent) (args : T) : iterate :=
  {| stored_args := args; refers_to := o |}.

(** [iterate::begin] and [iterate::end] (lines 156-161) *)
Definition begin_ (r : iterate) : M signal_iterator := λ m,
  (m, Ok {| iter_ := first_position (slots_ m) |}).
Definition end_ (r : iterate) : M signal_iterator :=
  ret {| iter_ := past_the_end |}.

(** [operator!=] (line 143) *)
Definition iterator_ne (a b : signal_iterator) : bool :=
  bool_decide (iter_ a ≠ iter_ b).

(** [value_type operator*()] (lines 129-136).  [std::apply] reads the stored
    references out of an lvalue tuple, so the slot is called with lvalues.
    [alive] says whether the objects that the references refer to still
    exist, and [args] is their state if they do; a slot that is handed an
    object that has been destroyed reads it, which is undefined. *)
Definition deref (it : signal_iterator) (alive : bool) (args : T) : M (T * R) :=
  lock_guard (emit_locker p) (λ m,
    match iter_ it with
    | at_node node =>
        match slot_at node (slots_ m) with
        | Some f =>
            if alive then invoke node f (initialisation FuncSig_param lvalue) args m
            else (m, Fault undefined_behaviour)
        | None => (m, Fault undefined_behaviour)
        end
    | past_the_end => (m, Fault undefined_behaviour)
    end).

(** [signal_iterator& operator++() { iter_++; return *this; }] *)
Definition incr (it : signal_iterator) : M signal_iterator := λ m,
  match iter_ it with
  | at_node node =>
      match successor node (slots_ m) with
      | Some next => (m, Ok {| iter_ := next |})
      | None => (m, Fault undefined_behaviour)
      end
  | past_the_end => (m, Fault undefined_behaviour)
  end.

(** The caller's loop over the range, which it leaves after [budget]
    elements at most:
    [for (auto r : sig.emit_iterate(args)) { out.push_back(r); ... }] *)
Fixpoint iterate_loop (budget : nat) (it last : signal_iterator) (alive : bool) (args : T)
  : M (T * list R) :=
  match budget with
  | 0 => ret (args, [])
  | S k =>
      if iterator_ne it last then
        x <- deref it alive args;;
        it' <- incr it;;
        rest <- iterate_loop k it' last alive x.1;;
        ret (rest.1, x.2 :: rest.2)
      else ret (args, [])
  end.

Definition range_for (budget : nat) (r : iterate) : M (T * list R) :=
  first <- begin_ r;;
  last <- end_ r;;
  iterate_loop budget first last (alive_in_loop (refers_to r)) (stored_args r).

(** The registered slots called by hand, one after the other, with the
    caller's arguments: what the loop over [emit_iterate] is compared with. *)
Fixpoint call_one_by_one (l : slot_container) (args : T) : M (T * list R) :=
  match l with
  | [] => ret (args, [])
  | (node, f) :: l' =>
      x <- invoke node f (initialisation FuncSig_param lvalue) args;;
      rest <- call_one_by_one l' x.1;;
      ret (rest.1, x.2 :: rest.2)
  end.

(** *** Observations *)

Definition invocation (e : event) : option (nat * T) :=
  match e with
  | EvInvoke node param => Some (node, param)
  | _ => None
  end.

(** The calls of slots recorded in a trace: which node, with what argument. *)
Definition invocations (tr : list event) : list (nat * T) := omap invocation tr.

Definition erasure (e : event) : option nat :=
  match e with
  | EvErase node => Some node
  | _ => None
  end.

(** The nodes erased in a trace. *)
Definition erasures (tr : list event) : list nat := omap erasure tr.

(** The events of a block that runs under a lock guard of kind [k]. *)
Definition guarded (k : lock_kind) (evs : list event) : list event :=
  match acquires (mutex_type p) k with
  | Some a => [EvLock a] ++ evs ++ [EvUnlock a]
  | None => evs
  end.

Definition invoke_event (x : nat * T) : event := EvInvoke x.1 x.2.

(** No slot of [l] changes the caller's argument object [args]. *)
Definition keeps_args (i : init_kind) (l : slot_container) (args : T) : Prop :=
  ∀ n g w, (n, g) ∈ l → args_after i args (g args w) = args.

(** The fields of the machine that a run of slots leaves alone. *)
Definition same_signal (m m' : machine) : Prop :=
  slots_ m' = slots_ m ∧ next_node m' = next_node m ∧
  conns m' = conns m ∧ next_conn m' = next_conn m.

(** Two machines with the same registry, the same world and the same
    recorded calls; they may differ in the lock events of their logs. *)
Definition same_observations (m m' : machine) : Prop :=
  slots_ m' = slots_ m ∧ world m' = world m ∧
  invocations (trace m') = invocations (trace m).

(** *** Programs of connects and disconnects *)

Inductive op :=
| op_connect (slot : slot_type)
| op_disconnect (c : nat).

Definition step (o : op) : M unit :=
  match o with
  | op_connect slot => (_ <- connect slot;; ret ())
  | op_disconnect c => disconnect c
  end.

Fixpoint run (ops : list op) : M unit :=
  match ops with
  | [] => ret ()
  | o :: rest => (step o;;; run rest)
  end.

(** The [k]-th connect of a program on a new signal creates connection [k]. *)
Fixpoint connected_from (k : nat) (ops : list op) : list (nat * slot_type) :=
  match ops with
  | [] => []
  | op_connect slot :: rest => (k, slot) :: connected_from (S k) rest
  | op_disconnect _ :: rest => connected_from k rest
  end.

Definition disconnected (ops : list op) : list nat :=
  omap (λ o, match o with op_disconnect c => Some c | op_connect _ => None end) ops.

(** A program disconnects only connections it has made. *)
Fixpoint well_formed_from (k : nat) (ops : list op) : Prop :=
  match ops with
  | [] => True
  | op_connect _ :: rest => well_formed_from (S k) rest
  | op_disconnect c :: rest => c < k ∧ well_formed_from k rest
  end.

(** The slots of a program that the program has not disconnected, in the
    order of their connects. *)
Definition surviving (ops : list op) : list (nat * slot_type) :=
  filter (λ x, x.1 ∉ disconnected ops) (connected_from 0 ops).

(** [n] calls of [disconnect] on the same connection. *)
Fixpoint disconnect_times (n : nat) (c : nat) : M unit :=
  match n with
  | 0 => ret ()
  | S k => (disconnect c;;; disconnect_times k c)
  end.

(** A slot that throws first when the slots [before] and then [f] are called
    in this order on [args] in the world [w]. *)
Fixpoint fails_after (i : init_kind) (before : slot_container) (f : slot_type)
  (e : exn) (args : T) (w : W) : Prop :=
  match before with
  | [] => result (f args w) = Thrown e
  | (_, g) :: rest =>
      ∃ r, result (g args w) = Returned r ∧
        fails_after i rest f e (args_after i args (g args w)) (world_after (g args w))
  end.

(** No slot of [l] throws when they are called in order. *)
Fixpoint all_return (i : init_kind) (l : slot_container) (args : T) (w : W) : Prop :=
  match l with
  | [] => True
  | (_, g) :: rest =>
      (∃ r, result (g args w) = Returned r) ∧
        all_return i rest (args_after i args (g args w)) (world_after (g args w))
  end.

(** *** Well-formed machines: what the operations maintain *)

Record well_formed (m : machine) : Prop := {
  nodes_distinct : NoDup (nodes (slots_ m));
  nodes_allocated : Forall (λ n, n < next_node m) (nodes (slots_ m));
}.

End Signal.

Arguments Ok {Σ X} x.
Arguments Fault {Σ X} f.

Abbreviation slot_container := (list (nat * slot_type)).

Notation "x <- c ;; k" := (bind c (λ x, k))
  (at level 100, c at next level, right associativity).
Notation "c ;;; k" := (bind c (λ _, k))
  (at level 100, right associativity).

(** ** Threads that share one signal

    The operations above run one at a time.  Here several threads call
    [connect], [disconnect] and [emit] on the same signal, and a thread is
    preempted between any two statements.  The mutex is a
    [std::shared_mutex]: [lock] waits until no thread holds it in either
    mode, [lock_shared] waits until no thread holds it exclusively. *)

Record mutex_state := { writer : bool; readers : nat }.

Definition unlocked : mutex_state := {| writer := false; readers := 0 |}.

Definition can_lock (a : access) (s : mutex_state) : bool :=
  match a with
  | Exclusive => negb (writer s) && bool_decide (readers s = 0)
  | Shared => negb (writer s)
  end.

Definition locked_by (a : access) (s : mutex_state) : mutex_state :=
  match a with
  | Exclusive => {| writer := true; readers := readers s |}
  | Shared => {| writer := writer s; readers := S (readers s) |}
  end.

Definition unlocked_by (a : access) (s : mutex_state) : mutex_state :=
  match a with
  | Exclusive => {| writer := false; readers := readers s |}
  | Shared => {| writer := writer s; readers := pred (readers s) |}
  end.

Section Threads.

Context {Σ : instantiation}.

(** The constructor of a lock guard on [slots_mutex]; [None] when the
    thread has to wait. *)
Definition try_lock (l : lock_kind) (m : machine) (mx : mutex_state)
  : option (machine * mutex_state) :=
  match acquires (mutex_type locking) l with
  | None => Some (m, mx)
  | Some a => if can_lock a mx then Some (log (EvLock a) m, locked_by a mx) else None
  end.

(** The destructor of a lock guard. *)
Definition unlock (l : lock_kind) (m : machine) (mx : mutex_state)
  : machine * mutex_state :=
  match acquires (mutex_type locking) l with
  | None => (m, mx)
  | Some a => (log (EvUnlock a) m, unlocked_by a mx)
  end.

Inductive api_call :=
| call_connect (slot : slot_type)
| call_disconnect (c : nat)
| call_emit (cat : value_category) (args : args_type).

(** Where a thread is in the code. *)
Inductive program_point :=
| outside                                   (* between two calls *)
| in_connect (slot : slot_type)             (* line 55, under the lock of line 53 *)
| leaving_connect (erase_iter : nat)        (* line 61 *)
| in_erase (c : nat) (erase_iter : nat)     (* line 59, under the lock of line 58 *)
| leaving_erase (c : nat)                   (* line 60, then line 34 *)
| in_emit (it : slot_iterator) (cat : value_category) (args : args_type)
                                            (* lines 87-89, under the lock of line 86 *)
| unwinding_emit (e : exn)                  (* a slot threw: the lock of line 86 is released *)
| stopped (f : fault).                      (* an exception has left the call *)

Record thread := { at_ : program_point; todo : list api_call }.

Record system := {
  shared : machine;
  mutex : mutex_state;
  threads : list thread
}.

(** The first statement of a call. *)
Definition enter (next : api_call) (rest : list api_call) (m : machine) (mx : mutex_state)
  : option (thread * machine * mutex_state) :=
  match next with
  | call_connect slot =>
      match try_lock unique_lock m mx with
      | Some (m', mx') => Some ({| at_ := in_connect slot; todo := rest |}, m', mx')
      | None => None
      end
  | call_disconnect c =>
      match conns m !! c with
      | Some conn =>
          match erase_func conn with
          | None => Some ({| at_ := stopped bad_function_call; todo := rest |}, m, mx)
          | Some empty_lambda =>
              Some ({| at_ := outside; todo := rest |},
                    (store c {| erase_func := Some empty_lambda; scoped := scoped conn |} m).1,
                    mx)
          | Some (erase_lambda erase_iter) =>
              match try_lock unique_lock m mx with
              | Some (m', mx') => Some ({| at_ := in_erase c erase_iter; todo := rest |}, m', mx')
              | None => None
              end
          end
      | None => None
      end
  | call_emit cat args =>
      match try_lock (emit_locker locking) m mx with
      | Some (m', mx') =>
          Some ({| at_ := in_emit (first_position (slots_ m)) cat args; todo := rest |}, m', mx')
      | None => None
      end
  end.

(** One statement of a thread; [None] when it waits for the mutex, has
    nothing left to do, has stopped, or its next statement is undefined. *)
Definition thread_step (t : thread) (m : machine) (mx : mutex_state)
  : option (thread * machine * mutex_state) :=
  match at_ t with
  | outside =>
      match todo t with
      | [] => None
      | next :: rest => enter next rest m mx
      end
  | in_connect slot =>
      match emplace_back slot m with
      | (m', Ok erase_iter) => Some ({| at_ := leaving_connect erase_iter; todo := todo t |}, m', mx)
      | (_, Fault _) => None
      end
  | leaving_connect erase_iter =>
      let m' := (construct {| erase_func := Some (erase_lambda erase_iter); scoped := false |} m).1 in
      let '(m'', mx') := unlock unique_lock m' mx in
      Some ({| at_ := outside; todo := todo t |}, m'', mx')
  | in_erase c erase_iter =>
      match erase erase_iter m with
      | (m', Ok _) => Some ({| at_ := leaving_erase c; todo := todo t |}, m', mx)
      | (_, Fault _) => None
      end
  | leaving_erase c =>
      match conns m !! c with
      | Some conn =>
          let '(m', mx') := unlock unique_lock m mx in
          Some ({| at_ := outside; todo := todo t |},
                (store c {| erase_func := Some empty_lambda; scoped := scoped conn |} m').1, mx')
      | None => None
      end
  | in_emit (at_node node) cat args =>
      match slot_at node (slots_ m), successor node (slots_ m) with
      | Some f, Some next =>
          match invoke node f (initialisation FuncSig_param cat) args m with
          | (m', Ok x) => Some ({| at_ := in_emit next cat x.1; todo := todo t |}, m', mx)
          | (m', Fault (slot_exception e)) =>
              Some ({| at_ := unwinding_emit e; todo := todo t |}, m', mx)
          | (_, Fault _) => None
          end
      | _, _ => None
      end
  | in_emit past_the_end cat args =>
      let '(m', mx') := unlock (emit_locker locking) m mx in
      Some ({| at_ := outside; todo := todo t |}, m', mx')
  | unwinding_emit e =>
      let '(m', mx') := unlock (emit_locker locking) m mx in
      Some ({| at_ := stopped (slot_exception e); todo := todo t |}, m', mx')
  | stopped _ => None
  end.

(** Any thread that can take a step may take it. *)
Inductive system_step (s : system) : system → Prop :=
| step_thread i t t' m' mx' :
    threads s !! i = Some t →
    thread_step t (shared s) (mutex s) = Some (t', m', mx') →
    system_step s {| shared := m'; mutex := mx'; threads := <[i := t']> (threads s) |}.

(** All threads are between calls and nobody holds the mutex. *)
Definition initial (s : system) : Prop :=
  mutex s = unlocked ∧ Forall (λ t, at_ t = outside) (threads s).

Definition reachable (s : system) : Prop :=
  ∃ s0, initial s0 ∧ rtc system_step s0 s.

(** The thread is changing the registry: it is in [connect] or in the erase
    lambda of a [disconnect]. *)
Definition mutating (w : program_point) : bool :=
  match w with
  | in_connect _ | leaving_connect _ | in_erase _ _ | leaving_erase _ => true
  | _ => false
  end.

(** The thread is in [emit]. *)
Definition emitting (w : program_point) : bool :=
  match w with
  | in_emit _ _ _ | unwinding_emit _ => true
  | _ => false
  end.

Fixpoint count (P : program_point → bool) (ths : list thread) : nat :=
  match ths with
  | [] => 0
  | t :: rest => (if P (at_ t) then 1 else 0) + count P rest
  end.

(** One call as the operation that it is when no other thread runs. *)
Definition perform (c : api_call) : M unit :=
  match c with
  | call_connect slot => (_ <- connect slot;; ret ())
  | call_disconnect c => disconnect c
  | call_emit cat args => (_ <- emit cat args;; ret ())
  end.

(** A thread alone on the machine, about to make one call, and where it is
    when the call has ended with the result [r]. *)
Definition solo (m : machine) (c : api_call) : system :=
  {| shared := m; mutex := unlocked; threads := [ {| at_ := outside; todo := [c] |} ] |}.

Definition after_call (x : machine * res unit) : system :=
  {| shared := x.1; mutex := unlocked;
     threads := [ {| at_ := match x.2 with Ok _ => outside | Fault f => stopped f end;
                     todo := [] |} ] |}.

(** What the mutex knows about the threads. *)
Definition mutex_invariant (s : system) : Prop :=
  readers (mutex s) = count emitting (threads s) ∧
  count mutating (threads s) = (if writer (mutex s) then 1 else 0) ∧
  (writer (mutex s) = true → readers (mutex s) = 0).

End Threads.

(** ** The rest of the header *)

Section Further.

Context {Σ : instantiation}.

(** The lambda of the member overloads (lines 77, 81),
    [[ptr, func](Args&&... args) -> R { return (ptr->*func)(std::forward<Args>(args)...); }]:
    a member function acts on the object that [ptr] points to, which is in
    the world. *)
Definition bound {C : Type} (ptr : C)
    (func : C → args_type → world_type → slot_effect) : slot_type :=
  λ args w, func ptr args w.

(** [ktsignal_connection connect(C* ptr, R(C::* func)(Args...))] (lines 75-78) *)
Definition connect_member {C : Type} (ptr : C)
    (func : C → args_type → world_type → slot_effect) : M nat :=
  connect (bound ptr func).

(** [ktsignal_scoped_connection scoped_connect(C* ptr, R(C::* func)(Args...))]
    (lines 79-82) *)
Definition scoped_connect_member {C : Type} (ptr : C)
    (func : C → args_type → world_type → slot_effect) : M nat :=
  scoped_connect (bound ptr func).

(** [operator==] (line 142): iterators are compared by position only. *)
Definition iterator_eq (a b : signal_iterator) : bool :=
  bool_decide (iter_ a = iter_ b).

(** [signal_iterator operator++(int)] (line 140) copies the iterator into
    [tmp], advances the iterator itself and returns [tmp]; it yields [tmp]
    and the iterator as it is afterwards. *)
Definition post_incr (it : signal_iterator) : M (signal_iterator * signal_iterator) :=
  let tmp := it in
  it' <- incr it;;
  ret (tmp, it').

(** [k] times [++it]. *)
Fixpoint advance (k : nat) (it : signal_iterator) : M signal_iterator :=
  match k with
  | 0 => ret it
  | S k' => (it' <- incr it;; advance k' it')
  end.

(** *** Programs over connection handles

    All that a caller can do with handles: make them with [connect] and
    [scoped_connect], disconnect them, move them and let them go out of
    scope.  The move leaves the source's [erase_func] empty, as the
    implementations of [std::function] do. *)

Inductive handle_op :=
| h_connect (slot : slot_type)
| h_scoped_connect (slot : slot_type)
| h_disconnect (c : nat)
| h_move (c : nat)
| h_destroy (c : nat).

Definition handle_step (o : handle_op) : M unit :=
  match o with
  | h_connect slot => (_ <- connect slot;; ret ())
  | h_scoped_connect slot => (_ <- scoped_connect slot;; ret ())
  | h_disconnect c => disconnect c
  | h_move c => (_ <- move_construct leaves_empty c;; ret ())
  | h_destroy c => destroy c
  end.

Fixpoint handle_run (ops : list handle_op) : M unit :=
  match ops with
  | [] => ret ()
  | o :: rest => (handle_step o;;; handle_run rest)
  end.

(** The handle that an operation uses, if it uses one. *)
Definition handle_used (o : handle_op) : option nat :=
  match o with
  | h_connect _ | h_scoped_connect _ => None
  | h_disconnect c | h_move c | h_destroy c => Some c
  end.

(** The connection [c] holds the erase lambda of node [it]. *)
Definition armed_at (m : machine) (c it : nat) : Prop :=
  ∃ conn, conns m !! c = Some conn ∧ erase_func conn = Some (erase_lambda it).

(** What the handle operations maintain: every erase lambda that a
    connection holds captures the iterator of a registered node, and no two
    connections hold the erase lambda of the same node. *)
Record consistent (m : machine) : Prop := {
  consistent_registry : well_formed m;
  handles_allocated : ∀ c conn, conns m !! c = Some conn → c < next_conn m;
  armed_registered : ∀ c it, armed_at m c it → it ∈ nodes (slots_ m);
  armed_distinct : ∀ c c' it, armed_at m c it → armed_at m c' it → c = c'
}.

(** *** Threads under either policy with a mutex *)

(** The thread holds the mutex exclusively: it is in a mutation, or in
    [emit] when [emit_locker] is a [std::unique_lock]. *)
Definition holds_exclusive (w : program_point) : bool :=
  mutating w || (emit_thread_safe locking && emitting w).

(** The thread holds the mutex shared. *)
Definition holds_shared (w : program_point) : bool :=
  negb (emit_thread_safe locking) && emitting w.

Definition lock_invariant (s : system) : Prop :=
  readers (mutex s) = count holds_shared (threads s) ∧
  count holds_exclusive (threads s) = (if writer (mutex s) then 1 else 0) ∧
  (writer (mutex s) = true → readers (mutex s) = 0).

(** The iterator of a thread in the loop of [emit] points into the registry. *)
Definition iterator_valid (m : machine) (w : program_point) : Prop :=
  match w with
  | in_emit (at_node n) _ _ => n ∈ nodes (slots_ m)
  | _ => True
  end.

(** One statement of thread [i], if it can take one; then the threads named
    in [order], one statement each. *)
Definition run_thread (i : nat) (s : system) : system :=
  match threads s !! i with
  | Some t =>
      match thread_step t (shared s) (mutex s) with
      | Some (t', m', mx') => {| shared := m'; mutex := mx'; threads := <[i := t']> (threads s) |}
      | None => s
      end
  | None => s
  end.

Fixpoint schedule (order : list nat) (s : system) : system :=
  match order with
  | [] => s
  | i :: rest => schedule rest (run_thread i s)
  end.

End Further.

(** ** Instantiations used in the examples *)

Open Scope Z_scope.

(** [ktsignal_impl<void(int), ...>]; the world is the list of calls that the
    slots have recorded. *)
Definition void_int (pol : policy) : instantiation :=
  {| args_type := Z; result_type := unit; world_type := list (string * Z);
     exn := string; moved_from := id; FuncSig_param := by_value;
     locking := pol |}.

(** [ktsignal_impl<int(int), ...>] *)
Definition int_int (pol : policy) : instantiation :=
  {| args_type := Z; result_type := Z; world_type := list (string * Z);
     exn := string; moved_from := id; FuncSig_param := by_value;
     locking := pol |}.

(** [ktsignal<void(std::unique_ptr<int>)>]: a [unique_ptr] that has been
    moved from is null. *)
Definition void_unique_ptr : instantiation :=
  {| args_type := option Z; result_type := unit;
     world_type := list (string * option Z);
     exn := string; moved_from := λ _, None; FuncSig_param := by_value;
     locking := ktsignal |}.

(** A slot that records its name and the argument it sees. *)
Definition recorder {pol} (name : string) : slot_type (Σ := void_int pol) :=
  λ a w, {| param_after := a; world_after := w ++ [(name, a)];
            result := Returned (Σ := void_int pol) () |}.

Definition ptr_recorder (name : string) : slot_type (Σ := void_unique_ptr) :=
  λ a w, {| param_after := a; world_after := w ++ [(name, a)];
            result := Returned (Σ := void_unique_ptr) () |}.

(** A slot that records its call and returns [r]. *)
Definition answering {pol} (name : string) (r : Z) : slot_type (Σ := int_int pol) :=
  λ a w, {| param_after := a; world_after := w ++ [(name, a)];
            result := Returned (Σ := int_int pol) r |}.

(** A slot that records its call and throws [e]. *)
Definition throwing {pol} (name : string) (e : string) : slot_type (Σ := void_int pol) :=
  λ a w, {| param_after := a; world_after := w ++ [(name, a)];
            result := Thrown (Σ := void_int pol) e |}.

Open Scope string_scope.

(** The signal of the scenario of the specification: A, B and C connected in
    this order.  Their nodes, and their connections, are 0, 1 and 2. *)
Definition abc_connected (pol : policy) : machine (Σ := void_int pol) :=
  (run (Σ := void_int pol)
     [op_connect (recorder "A"); op_connect (recorder "B"); op_connect (recorder "C")]
     (new_signal (Σ := void_int pol) [])).1.

(** The program that connects A, B and C and disconnects B. *)
Definition abc_program (pol : policy) : list (op (Σ := void_int pol)) :=
  [op_connect (recorder "A"); op_connect (recorder "B"); op_connect (recorder "C");
   op_disconnect 1].

(** B is disconnected, then [emit(5)]. *)
Definition abc_scenario (pol : policy) : machine (Σ := void_int pol) * res Z :=
  emit (Σ := void_int pol) rvalue 5 (disconnect (Σ := void_int pol) 1 (abc_connected pol)).1.

(** A signal on which the second of three slots throws. *)
Definition second_throws (pol : policy) : machine (Σ := void_int pol) :=
  (run (Σ := void_int pol)
     [op_connect (recorder "A"); op_connect (throwing "B" "boom"); op_connect (recorder "C")]
     (new_signal (Σ := void_int pol) [])).1.

(** Two slots that take a [std::unique_ptr<int>] by value. *)
Definition two_pointer_slots : machine (Σ := void_unique_ptr) :=
  (run (Σ := void_unique_ptr)
     [op_connect (ptr_recorder "A"); op_connect (ptr_recorder "B")]
     (new_signal (Σ := void_unique_ptr) [])).1.

(** Three slots that return 1, 2 and 3. *)
Definition three_answers (pol : policy) : machine (Σ := int_int pol) :=
  (run (Σ := int_int pol)
     [op_connect (answering "first" 1); op_connect (answering "second" 2);
      op_connect (answering "third" 3)]
     (new_signal (Σ := int_int pol) [])).1.

(** [{ auto a = sig.scoped_connect(slot); auto b = std::move(a); }]: at the
    end of the block [b] is destroyed, then [a]. *)
Definition moved_scoped_block `{Σ : instantiation} (mf : moved_from_function)
    (slot : slot_type) : M unit :=
  a <- scoped_connect slot;;
  b <- move_construct mf a;;
  destroy b;;;
  destroy a.

(** The same two objects destroyed in the other order, as when [a] is a
    temporary. *)
Definition moved_scoped_temporary `{Σ : instantiation} (mf : moved_from_function)
    (slot : slot_type) : M unit :=
  a <- scoped_connect slot;;
  b <- move_construct mf a;;
  destroy a;;;
  destroy b.

(** Two threads that are about to call [emit(5)] on the signal of the
    scenario. *)
Definition two_emitters : system (Σ := void_int ktsignal_threadsafe) :=
  {| shared := abc_connected ktsignal_threadsafe;
     mutex := unlocked;
     threads := [ {| at_ := outside; todo := [call_emit (Σ := void_int ktsignal_threadsafe) rvalue 5] |};
                  {| at_ := outside; todo := [call_emit (Σ := void_int ktsignal_threadsafe) rvalue 5] |} ] |}.

(** A thread about to call [emit(5)] and a thread about to connect a slot. *)
Definition emitter_and_connector (pol : policy) : system (Σ := void_int pol) :=
  {| shared := abc_connected pol;
     mutex := unlocked;
     threads := [ {| at_ := outside; todo := [call_emit (Σ := void_int pol) rvalue 5] |};
                  {| at_ := outside; todo := [call_connect (Σ := void_int pol) (recorder "D")] |} ] |}.

(** A thread about to call [emit(5)] and a thread about to disconnect A. *)
Definition emitter_and_disconnector (pol : policy) : system (Σ := void_int pol) :=
  {| shared := abc_connected pol;
     mutex := unlocked;
     threads := [ {| at_ := outside; todo := [call_emit (Σ := void_int pol) rvalue 5] |};
                  {| at_ := outside; todo := [call_disconnect (Σ := void_int pol) 0%nat] |} ] |}.

Close Scope string_scope.
Close Scope Z_scope.

(** * Properties *)

Section Facts.

Context {Σ : instantiation}.

Implicit Types (m : machine) (l : slot_container) (a args : args_type).
Implicit Types (f g : slot_type) (c : nat) (node n : nat).
Implicit Types (tr evs : list event) (k : lock_kind).

(** *** The event log *)

Lemma invocations_app tr1 tr2 :
  invocations (tr1 ++ tr2) = invocations tr1 ++ invocations tr2.
Proof. unfold invocations. apply omap_app. Qed.

Lemma erasures_app tr1 tr2 :
  erasures (tr1 ++ tr2) = erasures tr1 ++ erasures tr2.
Proof. unfold erasures. apply omap_app. Qed.

Lemma invocations_guarded k evs :
  invocations (guarded k evs) = invocations evs.
Proof.
  unfold guarded. destruct (acquires _ _); [|done].
  rewrite !invocations_app. cbn. by rewrite app_nil_r.
Qed.

Lemma erasures_guarded k evs :
  erasures (guarded k evs) = erasures evs.
Proof.
  unfold guarded. destruct (acquires _ _); [|done].
  rewrite !erasures_app. cbn. by rewrite app_nil_r.
Qed.

Lemma invocations_invoke_events (calls : list (nat * args_type)) :
  invocations (invoke_event <$> calls) = calls.
Proof.
  induction calls as [|[n x] calls IH]; [done|].
  cbn. unfold invocations in IH. by rewrite IH.
Qed.

Lemma erasures_invoke_events (calls : list (nat * args_type)) :
  erasures (invoke_event <$> calls) = [].
Proof. induction calls as [|[n x] calls IH]; [done|]. cbn. apply IH. Qed.

(** *** The registry *)

Lemma unlink_not_in node l : node ∉ nodes l → unlink node l = l.
Proof.
  induction l as [|[n f] l IH]; [done|]. cbn. intros Hn.
  apply not_elem_of_cons in Hn as [Hne Hn]. destruct (decide (n = node)); [congruence|].
  by rewrite IH.
Qed.

Lemma unlink_app_here l1 node f l2 :
  node ∉ nodes l1 → unlink node (l1 ++ (node, f) :: l2) = l1 ++ l2.
Proof.
  induction l1 as [|[n g] l1 IH]; cbn.
  - intros _. by rewrite decide_True.
  - intros Hn. apply not_elem_of_cons in Hn as [Hne Hn].
    destruct (decide (n = node)); [congruence|]. by rewrite IH.
Qed.

Lemma unlink_filter node l :
  NoDup (nodes l) → unlink node l = filter (λ x, x.1 ≠ node) l.
Proof.
  induction l as [|[n f] l IH]; [done|]. intros Hnd.
  change (nodes ((n, f) :: l)) with (n :: nodes l) in Hnd.
  apply NoDup_cons in Hnd as [Hn Hnd].
  rewrite filter_cons. change (unlink node ((n, f) :: l)) with
    (if decide (n = node) then l else (n, f) :: unlink node l).
  destruct (decide (n = node)) as [->|Hne].
  - rewrite decide_False by (cbn; tauto).
    rewrite <- IH by done. by rewrite unlink_not_in.
  - rewrite decide_True by done. by rewrite IH.
Qed.

Lemma nodes_unlink_subseteq node l : nodes (unlink node l) ⊆ nodes l.
Proof.
  induction l as [|[n f] l IH]; [done|]. cbn.
  destruct (decide (n = node)); cbn.
  - intros x Hx. by right.
  - intros x [-> |Hx]%elem_of_cons; [left|right; by apply IH].
Qed.

Lemma unlink_removes node l : NoDup (nodes l) → node ∉ nodes (unlink node l).
Proof.
  intros Hnd. rewrite unlink_filter by done. unfold nodes.
  rewrite list_elem_of_fmap. intros [[n f] [-> Hin]].
  apply list_elem_of_filter in Hin as [Hne _]. by apply Hne.
Qed.

Lemma NoDup_unlink node l : NoDup (nodes l) → NoDup (nodes (unlink node l)).
Proof.
  induction l as [|[n f] l IH]; [done|]. cbn. intros Hnd.
  apply NoDup_cons in Hnd as [Hn Hnd]. destruct (decide (n = node)); [done|].
  cbn. apply NoDup_cons. split; [|by apply IH].
  intros Hin. apply Hn. by eapply nodes_unlink_subseteq.
Qed.

Lemma unlink_decompose node l :
  node ∈ nodes l →
  ∃ l1 f l2, l = l1 ++ (node, f) :: l2 ∧ (node ∉ nodes l1) ∧ unlink node l = l1 ++ l2.
Proof.
  induction l as [|[n f] l IH]; intros Hin; [by apply elem_of_nil in Hin|].
  destruct (decide (n = node)) as [->|Hne].
  - exists [], f, l. split_and!; [done|apply not_elem_of_nil|].
    cbn. by rewrite decide_True.
  - change (nodes ((n, f) :: l)) with (n :: nodes l) in Hin.
    apply elem_of_cons in Hin as [?|Hin]; [congruence|].
    destruct (IH Hin) as (l1 & g & l2 & -> & Hl1 & Hun).
    exists ((n, f) :: l1), g, l2. split_and!; [done| |].
    + change (nodes ((n, f) :: l1)) with (n :: nodes l1).
      apply not_elem_of_cons. split; [congruence|done].
    + cbn. rewrite decide_False by done. by rewrite Hun.
Qed.

(** *** What each operation does to the machine *)

Lemma machine_eta m :
  {| slots_ := slots_ m; next_node := next_node m; conns := conns m;
     next_conn := next_conn m; world := world m; trace := trace m |} = m.
Proof. by destruct m. Qed.

Lemma connection_eta (conn : ktsignal_connection) :
  {| erase_func := erase_func conn; scoped := scoped conn |} = conn.
Proof. by destruct conn. Qed.

Lemma connect_spec slot m :
  connect slot m =
    ({| slots_ := slots_ m ++ [(next_node m, slot)];
        next_node := S (next_node m);
        conns := <[next_conn m :=
                    {| erase_func := Some (erase_lambda (next_node m)); scoped := false |}]>
                 (conns m);
        next_conn := S (next_conn m);
        world := world m;
        trace := trace m ++ guarded unique_lock [EvEmplace (next_node m)] |},
     Ok (next_conn m)).
Proof.
  unfold connect, lock_guard, guarded.
  destruct (acquires _ _); cbn; [|done].
  unfold log, set_next_conn, set_conns; cbn. by rewrite <- !app_assoc.
Qed.

Lemma scoped_connect_spec slot m :
  scoped_connect slot m =
    ({| slots_ := slots_ m ++ [(next_node m, slot)];
        next_node := S (next_node m);
        conns := <[next_conn m :=
                    {| erase_func := Some (erase_lambda (next_node m)); scoped := true |}]>
                 (conns m);
        next_conn := S (next_conn m);
        world := world m;
        trace := trace m ++ guarded unique_lock [EvEmplace (next_node m)] |},
     Ok (next_conn m)).
Proof.
  unfold scoped_connect, lock_guard, guarded.
  destruct (acquires _ _); cbn; [|done].
  unfold log, set_next_conn, set_conns; cbn. by rewrite <- !app_assoc.
Qed.

Lemma call_erase_lambda_spec it m :
  it ∈ nodes (slots_ m) →
  call_closure (erase_lambda it) m =
    ({| slots_ := unlink it (slots_ m); next_node := next_node m; conns := conns m;
        next_conn := next_conn m; world := world m;
        trace := trace m ++ guarded unique_lock [EvErase it] |}, Ok ()).
Proof.
  intros Hin. unfold call_closure, lock_guard, guarded, erase.
  destruct (acquires _ _); cbn; rewrite decide_True by done; [|done].
  unfold log, set_slots; cbn. by rewrite <- !app_assoc.
Qed.

Lemma call_erase_lambda_dangling it m :
  it ∉ nodes (slots_ m) →
  ∃ m', call_closure (erase_lambda it) m = (m', Fault undefined_behaviour) ∧
        slots_ m' = slots_ m ∧ conns m' = conns m ∧
        trace m' = trace m ++ guarded unique_lock [].
Proof.
  intros Hin. unfold call_closure, lock_guard, erase, guarded.
  destruct (acquires _ _); cbn; rewrite decide_False by done.
  - eexists. split_and!; [done..|]. cbn. by rewrite <- app_assoc.
  - eexists. split_and!; [done..|]. by rewrite app_nil_r.
Qed.

Lemma disconnect_armed c conn it m :
  conns m !! c = Some conn →
  erase_func conn = Some (erase_lambda it) →
  it ∈ nodes (slots_ m) →
  disconnect c m =
    ({| slots_ := unlink it (slots_ m); next_node := next_node m;
        conns := <[c := {| erase_func := Some empty_lambda; scoped := scoped conn |}]> (conns m);
        next_conn := next_conn m; world := world m;
        trace := trace m ++ guarded unique_lock [EvErase it] |}, Ok ()).
Proof.
  intros Hc Hf Hin. unfold disconnect, bind, load. rewrite Hc, Hf. unfold call.
  by rewrite call_erase_lambda_spec.
Qed.

Lemma disconnect_dangling c conn it m :
  conns m !! c = Some conn →
  erase_func conn = Some (erase_lambda it) →
  it ∉ nodes (slots_ m) →
  ∃ m', disconnect c m = (m', Fault undefined_behaviour) ∧
        slots_ m' = slots_ m ∧ trace m' = trace m ++ guarded unique_lock [].
Proof.
  intros Hc Hf Hin. unfold disconnect, bind, load. rewrite Hc, Hf. unfold call.
  destruct (call_erase_lambda_dangling it m Hin) as (m' & -> & ? & _ & ?). eauto.
Qed.

Lemma disconnect_disarmed c conn m :
  conns m !! c = Some conn →
  erase_func conn = Some empty_lambda →
  disconnect c m = (m, Ok ()).
Proof.
  intros Hc Hf. unfold disconnect, bind, load. rewrite Hc, Hf. cbn.
  unfold store, set_conns. rewrite <- Hf, connection_eta, insert_id by done.
  by rewrite machine_eta.
Qed.

Lemma disconnect_moved_from c conn m :
  conns m !! c = Some conn →
  erase_func conn = None →
  disconnect c m = (m, Fault bad_function_call).
Proof. intros Hc Hf. unfold disconnect, bind, load. by rewrite Hc, Hf. Qed.

Lemma disconnect_dead c m :
  conns m !! c = None → disconnect c m = (m, Fault undefined_behaviour).
Proof. intros Hc. unfold disconnect, bind, load. by rewrite Hc. Qed.

Lemma disconnect_times_disarmed n c conn m :
  conns m !! c = Some conn →
  erase_func conn = Some empty_lambda →
  disconnect_times n c m = (m, Ok ()).
Proof.
  intros Hc Hf. induction n as [|n IH]; [done|].
  cbn. unfold bind. by rewrite (disconnect_disarmed c conn).
Qed.

(** A [disconnect] that returns leaves the connection with the empty lambda. *)
Lemma disconnect_ok_disarms c m m' :
  disconnect c m = (m', Ok ()) →
  ∃ conn', conns m' !! c = Some conn' ∧ erase_func conn' = Some empty_lambda.
Proof.
  intros Hd. destruct (conns m !! c) as [conn|] eqn:Hc;
    [|by rewrite disconnect_dead in Hd].
  destruct (erase_func conn) as [[it|]|] eqn:Hf.
  - destruct (decide (it ∈ nodes (slots_ m))) as [Hin|Hin].
    + rewrite (disconnect_armed c conn it) in Hd by done.
      injection Hd as <-. cbn. rewrite lookup_insert_eq. eauto.
    + destruct (disconnect_dangling c conn it m) as (m1 & Hm1 & _); [done..|congruence].
  - rewrite (disconnect_disarmed c conn) in Hd by done.
    injection Hd as <-. eauto.
  - by rewrite (disconnect_moved_from c conn) in Hd.
Qed.

(** *** Emission *)

Lemma invoke_returns node f i a m r :
  result (f a (world m)) = Returned r →
  invoke node f i a m =
    ({| slots_ := slots_ m; next_node := next_node m; conns := conns m;
        next_conn := next_conn m; world := world_after (f a (world m));
        trace := trace m ++ [EvInvoke node a] |},
     Ok (args_after i a (f a (world m)), r)).
Proof. intros Hr. unfold invoke. by rewrite Hr. Qed.

Lemma invoke_throws node f i a m e :
  result (f a (world m)) = Thrown e →
  invoke node f i a m =
    ({| slots_ := slots_ m; next_node := next_node m; conns := conns m;
        next_conn := next_conn m; world := world_after (f a (world m));
        trace := trace m ++ [EvInvoke node a] |},
     Fault (slot_exception e)).
Proof. intros Hr. unfold invoke. by rewrite Hr. Qed.

Lemma same_signal_refl m : same_signal m m.
Proof. by repeat split. Qed.

Lemma same_signal_trans m1 m2 m3 :
  same_signal m1 m2 → same_signal m2 m3 → same_signal m1 m3.
Proof. unfold same_signal. intros (?&?&?&?) (?&?&?&?). split_and!; congruence. Qed.

(** Whatever the slots do, the loop calls a prefix of the registry in
    order, and all of it when it returns. *)
Lemma emit_loop_calls l cat a m :
  ∃ calls,
    trace (emit_loop l cat a m).1 = trace m ++ (invoke_event <$> calls) ∧
    same_signal m (emit_loop l cat a m).1 ∧
    calls.*1 `prefix_of` nodes l ∧
    (∀ a', (emit_loop l cat a m).2 = Ok a' → calls.*1 = nodes l).
Proof.
  revert a m. induction l as [|[n f] l IH]; intros a m.
  - exists []. cbn. rewrite app_nil_r. split_and!; [done|apply same_signal_refl|done..].
  - cbn [emit_loop]. unfold bind.
    destruct (result (f a (world m))) as [r|e] eqn:Hr.
    + rewrite (invoke_returns _ _ _ _ _ r Hr). cbn [fst].
      match goal with |- context [emit_loop l cat ?a1 ?m1] =>
        destruct (IH a1 m1) as (calls & Htr & Hsame & Hpre & Hok) end.
      exists ((n, a) :: calls). rewrite Htr. cbn [trace].
      split_and!.
      * by rewrite <- app_assoc.
      * apply Hsame.
      * by apply prefix_cons.
      * intros a' Ha'. cbn. f_equal. by eapply Hok.
    + rewrite (invoke_throws _ _ _ _ _ e Hr). cbn [fst snd trace].
      exists [(n, a)]. split_and!; [done|by repeat split| |done].
      apply prefix_cons, prefix_nil.
Qed.

(** When no slot throws, the loop returns after calling every slot. *)
Lemma emit_loop_returns l cat a m :
  all_return (initialisation FuncSig_param cat) l a (world m) →
  ∃ a', (emit_loop l cat a m).2 = Ok a'.
Proof.
  revert a m. induction l as [|[n f] l IH]; intros a m; [by eexists|].
  cbn [all_return emit_loop]. intros [[r Hr] Hrest]. unfold bind.
  rewrite (invoke_returns _ _ _ _ _ r Hr). by apply IH.
Qed.

(** When no slot throws and none changes the argument object, every slot
    sees the object as the caller passed it. *)
Lemma emit_loop_same_args l cat a m :
  all_return (initialisation FuncSig_param cat) l a (world m) →
  keeps_args (initialisation FuncSig_param cat) l a →
  trace (emit_loop l cat a m).1
    = trace m ++ (invoke_event <$> ((λ n, (n, a)) <$> nodes l)).
Proof.
  revert m. induction l as [|[n f] l IH]; intros m Hret Hkeep.
  - cbn. by rewrite app_nil_r.
  - cbn [all_return] in Hret. destruct Hret as [[r Hr] Hret].
    cbn [emit_loop]. unfold bind.
    rewrite (invoke_returns _ _ _ _ _ r Hr). cbn [fst].
    rewrite (Hkeep n f (world m)) in Hret |- * by left.
    rewrite IH.
    + cbn [trace]. by rewrite <- app_assoc.
    + done.
    + intros n' g w Hin. apply (Hkeep n' g w). by right.
Qed.

(** When a slot throws, the loop ends with its exception, having called the
    slots before it and the slot itself. *)
Lemma emit_loop_fails l1 n f l2 e cat a m :
  fails_after (initialisation FuncSig_param cat) l1 f e a (world m) →
  ∃ calls,
    (emit_loop (l1 ++ (n, f) :: l2) cat a m).2 = Fault (slot_exception e) ∧
    trace (emit_loop (l1 ++ (n, f) :: l2) cat a m).1
      = trace m ++ (invoke_event <$> calls) ∧
    calls.*1 = nodes l1 ++ [n].
Proof.
  revert a m. induction l1 as [|[n1 g] l1 IH]; intros a m.
  - cbn [fails_after app emit_loop]. intros He. unfold bind.
    rewrite (invoke_throws _ _ _ _ _ e He). by exists [(n, a)].
  - cbn [fails_after]. intros (r & Hr & Hrest).
    change (((n1, g) :: l1) ++ (n, f) :: l2) with ((n1, g) :: (l1 ++ (n, f) :: l2)).
    cbn [emit_loop]. unfold bind. rewrite (invoke_returns _ _ _ _ _ r Hr). cbn [fst].
    match goal with |- context [emit_loop _ cat ?a1 ?m1] =>
      destruct (IH a1 m1) as (calls & Hres & Htr & Hcalls) end; [done|].
    exists ((n1, a) :: calls). rewrite Hres, Htr. cbn [trace].
    split_and!; [done|by rewrite <- app_assoc|]. cbn. by f_equal.
Qed.

(** [emit] is its loop between the two events of its lock guard. *)
Lemma emit_unfold cat a m :
  ∃ m0, same_signal m m0 ∧ world m0 = world m ∧
    (emit cat a m).2 = (emit_loop (slots_ m) cat a m0).2 ∧
    same_signal (emit_loop (slots_ m) cat a m0).1 (emit cat a m).1 ∧
    world (emit cat a m).1 = world (emit_loop (slots_ m) cat a m0).1 ∧
    ∀ evs, trace (emit_loop (slots_ m) cat a m0).1 = trace m0 ++ evs →
           trace (emit cat a m).1 = trace m ++ guarded (emit_locker locking) evs.
Proof.
  unfold emit, lock_guard, guarded. destruct (acquires _ _) as [x|].
  - exists (log (EvLock x) m). cbn [slots_ log].
    destruct (emit_loop (slots_ m) cat a (log (EvLock x) m)) as [m' r] eqn:Hloop.
    split_and!; [by repeat split..|].
    intros evs Htr. cbn [fst log trace] in *. rewrite Htr.
    by rewrite <- !app_assoc.
  - exists m. split_and!; [by repeat split..|]. by intros evs ->.
Qed.

Lemma emit_calls cat a m :
  ∃ calls,
    trace (emit cat a m).1
      = trace m ++ guarded (emit_locker locking) (invoke_event <$> calls) ∧
    same_signal m (emit cat a m).1 ∧
    calls.*1 `prefix_of` nodes (slots_ m) ∧
    (∀ a', (emit cat a m).2 = Ok a' → calls.*1 = nodes (slots_ m)).
Proof.
  destruct (emit_unfold cat a m) as (m0 & Hm0 & Hw & Hres & Hsame & _ & Htr).
  destruct (emit_loop_calls (slots_ m) cat a m0) as (calls & Hcalls & Hsame' & Hpre & Hok).
  exists calls. split_and!; [by apply Htr| |done|].
  - eapply same_signal_trans; [exact Hm0|]. eapply same_signal_trans; [exact Hsame'|exact Hsame].
  - intros a' Ha'. rewrite Hres in Ha'. by eapply Hok.
Qed.

(** The calls that an [emit] adds to the log. *)
Lemma emit_invocations cat a m :
  ∃ calls,
    invocations (trace (emit cat a m).1) = invocations (trace m) ++ calls ∧
    same_signal m (emit cat a m).1 ∧
    calls.*1 `prefix_of` nodes (slots_ m) ∧
    (∀ a', (emit cat a m).2 = Ok a' → calls.*1 = nodes (slots_ m)).
Proof.
  destruct (emit_calls cat a m) as (calls & Htr & Hrest). exists calls.
  split; [|done].
  by rewrite Htr, invocations_app, invocations_guarded, invocations_invoke_events.
Qed.

(** When no slot throws, [emit] returns, and it has called every registered
    slot once, in the order of the registry. *)
Lemma emit_invokes_each_once cat a m :
  all_return (initialisation FuncSig_param cat) (slots_ m) a (world m) →
  ∃ a' calls,
    (emit cat a m).2 = Ok a' ∧
    invocations (trace (emit cat a m).1) = invocations (trace m) ++ calls ∧
    calls.*1 = nodes (slots_ m).
Proof.
  intros Hret.
  destruct (emit_unfold cat a m) as (m0 & _ & Hw & Hres & _).
  destruct (emit_loop_returns (slots_ m) cat a m0) as [a' Ha']; [by rewrite Hw|].
  destruct (emit_invocations cat a m) as (calls & Hinv & _ & _ & Hok).
  exists a', calls. rewrite Hres. split_and!; [done..|].
  apply (Hok a'). by rewrite Hres.
Qed.

(** When moreover no slot changes the argument object, which is so for an
    lvalue passed by value, every slot sees the argument of the caller. *)
Lemma emit_same_args cat a m :
  all_return (initialisation FuncSig_param cat) (slots_ m) a (world m) →
  keeps_args (initialisation FuncSig_param cat) (slots_ m) a →
  invocations (trace (emit cat a m).1)
    = invocations (trace m) ++ ((λ n, (n, a)) <$> nodes (slots_ m)).
Proof.
  intros Hret Hkeep.
  destruct (emit_unfold cat a m) as (m0 & _ & Hw & _ & _ & _ & Htr).
  rewrite (Htr _ (emit_loop_same_args (slots_ m) cat a m0 ltac:(by rewrite Hw) Hkeep)).
  by rewrite invocations_app, invocations_guarded, invocations_invoke_events.
Qed.

Lemma keeps_args_copy l a : keeps_args copy_init l a.
Proof. by intros n g w _. Qed.

(** An lvalue passed to slots that take their parameter by value is copied
    for each slot: every slot sees the argument of the caller. *)
Lemma emit_lvalue_by_value_same_args a m :
  FuncSig_param = by_value →
  all_return copy_init (slots_ m) a (world m) →
  invocations (trace (emit lvalue a m).1)
    = invocations (trace m) ++ ((λ n, (n, a)) <$> nodes (slots_ m)).
Proof.
  intros Hby Hret. apply emit_same_args; rewrite Hby; [done|apply keeps_args_copy].
Qed.

(** C5.  When the slot in node [n] is the first to throw, with [e], then
    [emit] ends with that very [e]; it has called the slots before [n] and
    the slot in [n], in this order, and it has called no slot after [n]. *)
Theorem emit_fail_fast m cat a l1 n f l2 e :
  slots_ m = l1 ++ (n, f) :: l2 →
  fails_after (initialisation FuncSig_param cat) l1 f e a (world m) →
  (emit cat a m).2 = Fault (slot_exception e) ∧
  ∃ calls,
    invocations (trace (emit cat a m).1) = invocations (trace m) ++ calls ∧
    calls.*1 = nodes l1 ++ [n] ∧
    (NoDup (nodes (slots_ m)) → ∀ n', n' ∈ nodes l2 → n' ∉ calls.*1).
Proof.
  intros Hl Hfail.
  destruct (emit_unfold cat a m) as (m0 & _ & Hw & Hres & _ & _ & Htr).
  rewrite Hl in Hres, Htr. rewrite <- Hw in Hfail.
  destruct (emit_loop_fails l1 n f l2 e cat a m0 Hfail) as (calls & Hflt & Hloop & Hcalls).
  split; [by rewrite Hres|]. exists calls. split_and!; [|done|].
  - rewrite (Htr _ Hloop).
    by rewrite invocations_app, invocations_guarded, invocations_invoke_events.
  - rewrite Hl, Hcalls. unfold nodes. rewrite fmap_app, fmap_cons.
    intros Hnd n' Hin Hin'.
    rewrite (assoc_L (++) _ [_] _ : _ ++ (n, f).1 :: _ = (_ ++ [n]) ++ _) in Hnd.
    apply NoDup_app in Hnd as (_ & Hdisj & _). by apply (Hdisj n').
Qed.

(** *** Result iteration *)

Lemma slot_at_app_here l1 node f l2 :
  node ∉ nodes l1 → slot_at node (l1 ++ (node, f) :: l2) = Some f.
Proof.
  induction l1 as [|[n g] l1 IH]; cbn.
  - intros _. by rewrite decide_True.
  - intros Hn. apply not_elem_of_cons in Hn as [Hne Hn].
    destruct (decide (n = node)); [congruence|]. by apply IH.
Qed.

Lemma successor_app_here l1 node f l2 :
  node ∉ nodes l1 → successor node (l1 ++ (node, f) :: l2) = Some (first_position l2).
Proof.
  induction l1 as [|[n g] l1 IH]; cbn.
  - intros _. by rewrite decide_True.
  - intros Hn. apply not_elem_of_cons in Hn as [Hne Hn].
    destruct (decide (n = node)); [congruence|]. by apply IH.
Qed.

(** Advancing the iterator leaves the machine as it is. *)
Lemma incr_pure (it : signal_iterator) m : (incr it m).1 = m.
Proof.
  unfold incr. destruct (iter_ it) as [node|]; [|done].
  by destruct (successor node (slots_ m)).
Qed.

Lemma deref_spec (it : signal_iterator) node f a m :
  iter_ it = at_node node →
  slot_at node (slots_ m) = Some f →
  (deref it true a m).2
    = match result (f a (world m)) with
      | Returned r => Ok (args_after (initialisation FuncSig_param lvalue) a (f a (world m)), r)
      | Thrown e => Fault (slot_exception e)
      end ∧
  world (deref it true a m).1 = world_after (f a (world m)) ∧
  trace (deref it true a m).1 = trace m ++ guarded (emit_locker locking) [EvInvoke node a] ∧
  same_signal m (deref it true a m).1.
Proof.
  intros Hit Hf. unfold deref, lock_guard, guarded. rewrite Hit.
  destruct (acquires _ _) as [x|]; cbn [slots_ log]; rewrite Hf; unfold invoke;
    cbn [world log]; destruct (result (f a (world m))); cbn;
    split_and!; try done; try (by repeat split); by rewrite <- !app_assoc.
Qed.

Lemma call_one_by_one_cons_returns n f l a m r :
  result (f a (world m)) = Returned r →
  call_one_by_one ((n, f) :: l) a m =
    let rest :=
      call_one_by_one l (args_after (initialisation FuncSig_param lvalue) a (f a (world m)))
        {| slots_ := slots_ m; next_node := next_node m; conns := conns m;
           next_conn := next_conn m; world := world_after (f a (world m));
           trace := trace m ++ [EvInvoke n a] |} in
    (rest.1, match rest.2 with
             | Ok x => Ok (x.1, r :: x.2)
             | Fault flt => Fault flt
             end).
Proof.
  intros Hr. cbn [call_one_by_one]. unfold bind.
  rewrite (invoke_returns _ _ _ _ _ r Hr). cbn [fst snd].
  by destruct (call_one_by_one l _ _) as [m2 [x|flt]].
Qed.

Lemma call_one_by_one_cons_throws n f l a m e :
  result (f a (world m)) = Thrown e →
  call_one_by_one ((n, f) :: l) a m =
    ({| slots_ := slots_ m; next_node := next_node m; conns := conns m;
        next_conn := next_conn m; world := world_after (f a (world m));
        trace := trace m ++ [EvInvoke n a] |}, Fault (slot_exception e)).
Proof.
  intros Hr. cbn [call_one_by_one]. unfold bind.
  by rewrite (invoke_throws _ _ _ _ _ e Hr).
Qed.

Lemma call_one_by_one_calls l a m :
  ∃ calls,
    trace (call_one_by_one l a m).1 = trace m ++ (invoke_event <$> calls) ∧
    calls.*1 `prefix_of` nodes l ∧
    (∀ x, (call_one_by_one l a m).2 = Ok x → calls.*1 = nodes l).
Proof.
  revert a m. induction l as [|[n f] l IH]; intros a m.
  - exists []. cbn. by rewrite app_nil_r.
  - destruct (result (f a (world m))) as [r|e] eqn:Hr.
    + rewrite (call_one_by_one_cons_returns _ _ _ _ _ r Hr). cbn zeta. cbn [fst snd].
      match goal with |- context [call_one_by_one l ?a1 ?m1] =>
        destruct (IH a1 m1) as (calls & Htr & Hpre & Hok);
        destruct (call_one_by_one l a1 m1) as [m2 [x|flt]] end;
        cbn [fst snd] in *; exists ((n, a) :: calls); rewrite Htr; cbn [trace].
      * split_and!; [by rewrite <- app_assoc|by apply prefix_cons|].
        intros _ _. cbn. f_equal. by eapply Hok.
      * split_and!; [by rewrite <- app_assoc|by apply prefix_cons|done].
    + rewrite (call_one_by_one_cons_throws _ _ _ _ _ e Hr). cbn [fst snd trace].
      exists [(n, a)]. split_and!; [done| |done]. apply prefix_cons, prefix_nil.
Qed.

Lemma iterate_loop_at_node budget n (alive : bool) a m m' x next :
  deref {| iter_ := at_node n |} alive a m = (m', Ok x) →
  successor n (slots_ m') = Some next →
  iterate_loop (S budget) {| iter_ := at_node n |} {| iter_ := past_the_end |} alive a m =
    let rest :=
      iterate_loop budget {| iter_ := next |} {| iter_ := past_the_end |} alive x.1 m' in
    (rest.1, match rest.2 with
             | Ok y => Ok (y.1, x.2 :: y.2)
             | Fault flt => Fault flt
             end).
Proof.
  intros Hd Hs. cbn [iterate_loop]. unfold iterator_ne. cbn [iter_].
  rewrite bool_decide_true by done.
  unfold bind. rewrite Hd. unfold incr. cbn [iter_]. rewrite Hs.
  by destruct (iterate_loop budget _ _ _ _ m') as [m2 [y|flt]].
Qed.

Lemma iterate_loop_at_node_throws budget n (alive : bool) a m m' flt :
  deref {| iter_ := at_node n |} alive a m = (m', Fault flt) →
  iterate_loop (S budget) {| iter_ := at_node n |} {| iter_ := past_the_end |} alive a m
    = (m', Fault flt).
Proof.
  intros Hd. cbn [iterate_loop]. unfold iterator_ne. cbn [iter_].
  rewrite bool_decide_true by done.
  unfold bind. by rewrite Hd.
Qed.

(** The caller's loop, started at the position that heads [l2], does what
    calling the first [budget] slots of [l2] by hand does. *)
Lemma iterate_loop_refines budget l1 l2 a ma mb :
  slots_ ma = l1 ++ l2 →
  NoDup (nodes (l1 ++ l2)) →
  same_observations mb ma →
  (iterate_loop budget {| iter_ := first_position l2 |} {| iter_ := past_the_end |}
     true a ma).2
    = (call_one_by_one (take budget l2) a mb).2 ∧
  same_observations (call_one_by_one (take budget l2) a mb).1
    (iterate_loop budget {| iter_ := first_position l2 |} {| iter_ := past_the_end |}
       true a ma).1.
Proof.
  revert l1 l2 a ma mb. induction budget as [|budget IH]; intros l1 l2 a ma mb Hl Hnd Hobs.
  { by rewrite take_0. }
  destruct l2 as [|[n f] l2]; [done|].
  change (take (S budget) ((n, f) :: l2)) with ((n, f) :: take budget l2).
  cbn [first_position].
  assert (n ∉ nodes l1) as Hn.
  { unfold nodes in Hnd. rewrite fmap_app in Hnd.
    apply NoDup_app in Hnd as (_ & Hdisj & _). intros Hin. apply (Hdisj n Hin). by left. }
  assert (slot_at n (slots_ ma) = Some f) as Hf by (rewrite Hl; by apply slot_at_app_here).
  destruct (deref_spec {| iter_ := at_node n |} n f a ma eq_refl Hf)
    as (Hres & Hw & Htr & Hsl & _).
  destruct Hobs as (Hs & Hwab & Hinv).
  destruct (deref {| iter_ := at_node n |} true a ma) as [ma' ra] eqn:Hderef.
  cbn [fst snd] in Hres, Hw, Htr, Hsl. rewrite Hwab in Hres, Hw. subst ra.
  destruct (result (f a (world mb))) as [r|e] eqn:Hr.
  - rewrite (call_one_by_one_cons_returns _ _ _ _ _ r Hr).
    rewrite (iterate_loop_at_node budget n true a ma ma' _ (first_position l2) Hderef)
      by (rewrite Hsl, Hl; by apply successor_app_here).
    cbn zeta. cbn [fst snd].
    match goal with |- context [call_one_by_one _ ?a1 ?m1] =>
      destruct (IH (l1 ++ [(n, f)]) l2 a1 ma' m1) as [Hr2 Ho2] end.
    + rewrite Hsl, Hl. by rewrite <- app_assoc.
    + by rewrite <- app_assoc.
    + split_and!; cbn [slots_ world trace]; [congruence|done|].
      rewrite Htr, !invocations_app, invocations_guarded. by rewrite Hinv.
    + split; [|done]. by rewrite Hr2.
  - rewrite (call_one_by_one_cons_throws _ _ _ _ _ e Hr).
    rewrite (iterate_loop_at_node_throws budget n true a ma ma' _ Hderef).
    cbn [fst snd]. split; [done|].
    split_and!; cbn [slots_ world trace]; [congruence|done|].
    rewrite Htr, !invocations_app, invocations_guarded. by rewrite Hinv.
Qed.

Lemma same_observations_refl m : same_observations m m.
Proof. by repeat split. Qed.

(** X17.  For arguments that outlive the range.  On a registry whose nodes
    are distinct, as they are in every machine that the operations produce,
    the caller's loop over [emit_iterate(args)] that takes at most [budget]
    elements yields the results, and leaves the world and the recorded
    calls, that calling the first [budget] registered slots by hand, in
    order, yields and leaves; a budget of the length of the registry or more
    covers all slots.  The loop calls slots of that prefix only, in order.
    Advancing the iterator changes nothing, so it calls no slot;
    dereferencing it at a node calls the slot of that node once, with the
    arguments, and yields what the slot yields. *)
Theorem emit_iterate_refines budget a m :
  NoDup (nodes (slots_ m)) →
  ((range_for budget (emit_iterate caller_object a) m).2
     = (call_one_by_one (take budget (slots_ m)) a m).2 ∧
   same_observations (call_one_by_one (take budget (slots_ m)) a m).1
     (range_for budget (emit_iterate caller_object a) m).1) ∧
  (length (slots_ m) ≤ budget →
   (range_for budget (emit_iterate caller_object a) m).2
     = (call_one_by_one (slots_ m) a m).2) ∧
  (∃ calls,
     invocations (trace (range_for budget (emit_iterate caller_object a) m).1)
       = invocations (trace m) ++ calls ∧
     calls.*1 `prefix_of` nodes (take budget (slots_ m)) ∧
     (∀ x, (range_for budget (emit_iterate caller_object a) m).2 = Ok x →
           calls.*1 = nodes (take budget (slots_ m)))) ∧
  (∀ it : signal_iterator, (incr it m).1 = m) ∧
  (∀ (it : signal_iterator) node f,
     iter_ it = at_node node →
     slot_at node (slots_ m) = Some f →
     invocations (trace (deref it true a m).1) = invocations (trace m) ++ [(node, a)] ∧
     (deref it true a m).2
       = match result (f a (world m)) with
         | Returned r =>
             Ok (args_after (initialisation FuncSig_param lvalue) a (f a (world m)), r)
         | Thrown e => Fault (slot_exception e)
         end).
Proof.
  intros Hnd.
  assert (range_for budget (emit_iterate caller_object a) m
          = iterate_loop budget {| iter_ := first_position (slots_ m) |}
              {| iter_ := past_the_end |} true a m) as Hunfold by done.
  destruct (iterate_loop_refines budget [] (slots_ m) a m m eq_refl Hnd
              (same_observations_refl m)) as [Hres Hobs].
  rewrite <- Hunfold in Hres, Hobs.
  split_and!; [done..| | | |].
  - intros Hlen. by rewrite Hres, take_ge.
  - destruct (call_one_by_one_calls (take budget (slots_ m)) a m) as (calls & Htr & Hpre & Hok).
    exists calls. destruct Hobs as (_ & _ & ->). rewrite Htr.
    rewrite invocations_app, invocations_invoke_events.
    split_and!; [done..|]. intros x Hx. rewrite Hres in Hx. by eapply Hok.
  - intros it. apply incr_pure.
  - intros it node f Hit Hf.
    destruct (deref_spec it node f a m Hit Hf) as (Hr & _ & Htr & _).
    split; [|done]. rewrite Htr, invocations_app, invocations_guarded. done.
Qed.

(** A temporary argument is gone when the loop starts.  If there is a slot
    and the loop takes an element, its first [operator*] hands a destroyed
    object to the first slot: the loop is undefined before any slot has
    run, where calling the slots by hand with the argument is not. *)
Lemma range_for_temporary budget a m :
  slots_ m ≠ [] → budget ≠ 0 →
  (range_for budget (emit_iterate temporary a) m).2 = Fault undefined_behaviour ∧
  world (range_for budget (emit_iterate temporary a) m).1 = world m ∧
  invocations (trace (range_for budget (emit_iterate temporary a) m).1)
    = invocations (trace m).
Proof.
  intros Hslots Hbudget. destruct budget as [|budget]; [done|].
  destruct (slots_ m) as [|[n f] l] eqn:Hl; [done|].
  unfold range_for, bind, begin_, end_, ret. rewrite Hl.
  cbn [first_position emit_iterate refers_to stored_args alive_in_loop iterate_loop].
  unfold iterator_ne. cbn [iter_]. rewrite bool_decide_true by done.
  unfold bind, deref, lock_guard. cbn [iter_].
  destruct (acquires _ _) as [x|]; cbn [slots_ log]; rewrite Hl; cbn [slot_at];
    rewrite decide_True by done; cbn [fst snd world trace log];
    rewrite ?invocations_app; cbn; by rewrite ?app_nil_r.
Qed.

(** *** Disconnecting more than once *)

Lemma disconnect_times_S n c m :
  disconnect_times (S n) c m = disconnect c m.
Proof.
  cbn. unfold bind.
  destruct (disconnect c m) as [m' [[]|flt]] eqn:Hd; [|done].
  destruct (disconnect_ok_disarms c m m' Hd) as (conn' & Hc' & Hf').
  by rewrite (disconnect_times_disarmed n c conn').
Qed.

(** One call of [disconnect] either leaves the registry alone and erases
    nothing, or returns after erasing one registered node. *)
Lemma disconnect_cases c m :
  (slots_ (disconnect c m).1 = slots_ m ∧
   erasures (trace (disconnect c m).1) = erasures (trace m)) ∨
  (∃ it, it ∈ nodes (slots_ m) ∧ (disconnect c m).2 = Ok () ∧
         slots_ (disconnect c m).1 = unlink it (slots_ m) ∧
         erasures (trace (disconnect c m).1) = erasures (trace m) ++ [it]).
Proof.
  destruct (conns m !! c) as [conn|] eqn:Hc;
    [|left; by rewrite disconnect_dead].
  destruct (erase_func conn) as [[it|]|] eqn:Hf.
  - destruct (decide (it ∈ nodes (slots_ m))) as [Hin|Hin].
    + right. exists it. rewrite (disconnect_armed c conn it) by done.
      cbn [fst snd slots_ trace]. by rewrite erasures_app, erasures_guarded.
    + left. destruct (disconnect_dangling c conn it m) as (m1 & -> & ? & Htr); [done..|].
      cbn [fst]. split; [done|]. rewrite Htr, erasures_app, erasures_guarded. apply app_nil_r.
  - left. by rewrite (disconnect_disarmed c conn).
  - left. by rewrite (disconnect_moved_from c conn).
Qed.

Lemma destroy_disarmed c conn m :
  conns m !! c = Some conn →
  erase_func conn = Some empty_lambda →
  destroy c m = (set_conns (delete c (conns m)) m, Ok ()).
Proof.
  intros Hc Hf. unfold destroy, bind, load, noexcept. rewrite Hc.
  destruct (scoped conn); [|done].
  by rewrite (disconnect_disarmed c conn).
Qed.

(** C3.  Any number of calls of [disconnect] on a connection, one at least,
    leaves the machine, the event log included, as a single call leaves it
    and ends as that call ends.  When the connection holds the erase lambda
    of a registered slot, the first call runs it (the node is unlinked and
    the one erasure is logged), and every later call returns and changes
    nothing. *)
Theorem disconnect_idempotent c m :
  (∀ n, disconnect_times (S n) c m = disconnect c m) ∧
  (∀ conn it,
     conns m !! c = Some conn →
     erase_func conn = Some (erase_lambda it) →
     it ∈ nodes (slots_ m) →
     ∃ m', disconnect c m = (m', Ok ()) ∧
           slots_ m' = unlink it (slots_ m) ∧
           erasures (trace m') = erasures (trace m) ++ [it] ∧
           ∀ n, disconnect_times n c m' = (m', Ok ())).
Proof.
  split; [intros n; apply disconnect_times_S|].
  intros conn it Hc Hf Hin. eexists. split; [by apply (disconnect_armed c conn it)|].
  cbn [slots_ trace]. split_and!; [done| |].
  - by rewrite erasures_app, erasures_guarded.
  - intros n. eapply disconnect_times_disarmed; [apply lookup_insert_eq|done].
Qed.

Lemma move_construct_disarmed mf c conn m :
  conns m !! c = Some conn →
  erase_func conn = Some empty_lambda →
  ∃ m', move_construct mf c m = (m', Ok (next_conn m)) ∧
        slots_ m' = slots_ m ∧ trace m' = trace m ∧
        conns m' !! next_conn m = Some conn.
Proof.
  intros Hc Hf. unfold move_construct, bind, load, store, construct. rewrite Hc.
  eexists. split; [done|]. cbn. split_and!; [done..|]. apply lookup_insert_eq.
Qed.

(** C8.  Over any number of calls of [disconnect] on one connection the
    registry loses at most one entry, the other entries stay as they are and
    in their order, and at most one erasure is logged.  Once a call has
    returned, the connection holds the empty lambda, which captures no
    iterator: every later [disconnect] and the destructor leave the registry
    and the event log untouched, and a move construction passes the empty
    lambda on. *)
Theorem disconnect_erases_at_most_once c m n :
  (slots_ (disconnect_times n c m).1 = slots_ m ∨
   ∃ l1 x l2, slots_ m = l1 ++ x :: l2 ∧ slots_ (disconnect_times n c m).1 = l1 ++ l2) ∧
  (∃ erased, erasures (trace (disconnect_times n c m).1) = erasures (trace m) ++ erased ∧
             length erased ≤ 1) ∧
  (∀ m1, disconnect c m = (m1, Ok ()) →
     (∃ conn', conns m1 !! c = Some conn' ∧ erase_func conn' = Some empty_lambda) ∧
     (∀ j, disconnect_times j c m1 = (m1, Ok ())) ∧
     destroy c m1 = (set_conns (delete c (conns m1)) m1, Ok ()) ∧
     (∀ mf, ∃ m2 conn',
        move_construct mf c m1 = (m2, Ok (next_conn m1)) ∧
        slots_ m2 = slots_ m1 ∧ trace m2 = trace m1 ∧
        conns m2 !! next_conn m1 = Some conn' ∧
        erase_func conn' = Some empty_lambda)).
Proof.
  split_and!.
  - destruct n as [|n]; [by left|]. rewrite disconnect_times_S.
    destruct (disconnect_cases c m) as [[-> _]|(it & Hin & _ & -> & _)]; [by left|].
    right. destruct (unlink_decompose it (slots_ m) Hin) as (l1 & f & l2 & H1 & _ & H2).
    exists l1, (it, f), l2. split; [exact H1|exact H2].
  - destruct n as [|n].
    { exists []. rewrite app_nil_r. split; [done|cbn; lia]. }
    rewrite disconnect_times_S.
    destruct (disconnect_cases c m) as [[_ ->]|(it & _ & _ & _ & ->)].
    + exists []. rewrite app_nil_r. split; [done|cbn; lia].
    + exists [it]. split; [done|cbn; lia].
  - intros m1 Hd. destruct (disconnect_ok_disarms c m m1 Hd) as (conn' & Hc' & Hf').
    split_and!; [by eauto| |by eapply destroy_disarmed|].
    + intros j. by eapply disconnect_times_disarmed.
    + intros mf. destruct (move_construct_disarmed mf c conn' m1 Hc' Hf')
        as (m2 & Hmove & Hs & Htr & Hnew).
      by exists m2, conn'.
Qed.

(** *** Well-formed machines *)

Lemma well_formed_new_signal w : well_formed (new_signal w).
Proof. split; cbn; [apply NoDup_nil_2|apply Forall_nil_2]. Qed.

Lemma well_formed_connect slot m : well_formed m → well_formed (connect slot m).1.
Proof.
  intros [Hnd Hal]. rewrite connect_spec. split; cbn [fst slots_ next_node].
  - unfold nodes. rewrite fmap_app. apply NoDup_app. split_and!; [done| |apply NoDup_singleton].
    intros n Hn ->%list_elem_of_singleton.
    rewrite Forall_forall in Hal. specialize (Hal _ Hn). cbn in Hal. lia.
  - unfold nodes. rewrite fmap_app. apply Forall_app. split.
    + eapply Forall_impl; [exact Hal|]. cbn. lia.
    + apply Forall_singleton. cbn. lia.
Qed.

(** Whatever [disconnect] does, its registry is the old one or the old one
    without one node, and it allocates nothing. *)
Lemma disconnect_registry c m :
  (slots_ (disconnect c m).1 = slots_ m ∨
   ∃ it, slots_ (disconnect c m).1 = unlink it (slots_ m)) ∧
  next_node (disconnect c m).1 = next_node m.
Proof.
  destruct (conns m !! c) as [conn|] eqn:Hc;
    [|rewrite disconnect_dead by done; by split; [left|]].
  destruct (erase_func conn) as [[it|]|] eqn:Hf.
  - destruct (decide (it ∈ nodes (slots_ m))) as [Hin|Hin].
    + rewrite (disconnect_armed c conn it) by done. split; [right; by exists it|done].
    + unfold disconnect, bind, load. rewrite Hc, Hf. unfold call, call_closure, lock_guard, erase.
      destruct (acquires _ _); cbn; rewrite decide_False by done; by split; [left|].
  - rewrite (disconnect_disarmed c conn) by done. by split; [left|].
  - rewrite (disconnect_moved_from c conn) by done. by split; [left|].
Qed.

Lemma well_formed_disconnect c m : well_formed m → well_formed (disconnect c m).1.
Proof.
  intros [Hnd Hal]. destruct (disconnect_registry c m) as [[Hs|[it Hs]] Hn];
    split; rewrite ?Hs, ?Hn; try done.
  - by apply NoDup_unlink.
  - eapply Forall_forall. intros n Hin. rewrite Forall_forall in Hal.
    apply Hal. by eapply nodes_unlink_subseteq.
Qed.

(** A node that has left the registry, and the allocator will not hand out
    again. *)
Lemma retired_connect it slot m :
  it ∉ nodes (slots_ m) → it < next_node m →
  (it ∉ nodes (slots_ (connect slot m).1)) ∧ it < next_node (connect slot m).1.
Proof.
  intros Hout Hlt. rewrite connect_spec. cbn [fst slots_ next_node].
  split; [|lia]. unfold nodes. rewrite fmap_app. cbn.
  rewrite elem_of_app, list_elem_of_singleton. intros [?|?]; [done|lia].
Qed.

Lemma retired_disconnect it c m :
  it ∉ nodes (slots_ m) → it < next_node m →
  (it ∉ nodes (slots_ (disconnect c m).1)) ∧ it < next_node (disconnect c m).1.
Proof.
  intros Hout Hlt. destruct (disconnect_registry c m) as [[Hs|[it' Hs]] Hn];
    rewrite Hs, Hn; split; try done.
  intros Hin. apply Hout. by eapply nodes_unlink_subseteq.
Qed.

Lemma retired_run it ops m :
  it ∉ nodes (slots_ m) → it < next_node m →
  (it ∉ nodes (slots_ (run ops m).1)) ∧ it < next_node (run ops m).1.
Proof.
  revert m. induction ops as [|o ops IH]; intros m Hout Hlt; [done|].
  cbn [run]. unfold bind.
  assert ((it ∉ nodes (slots_ (step o m).1)) ∧ it < next_node (step o m).1) as [Hout' Hlt'].
  { destruct o as [slot|c]; cbn [step].
    - unfold bind. pose proof (retired_connect it slot m Hout Hlt) as H.
      by destruct (connect slot m) as [m1 [c1|flt]].
    - by apply retired_disconnect. }
  destruct (step o m) as [m1 [[]|flt]]; cbn [fst] in *; [by apply IH|done].
Qed.

Lemma well_formed_run ops m : well_formed m → well_formed (run ops m).1.
Proof.
  revert m. induction ops as [|o ops IH]; intros m Hwf; [done|].
  cbn [run]. unfold bind.
  assert (well_formed (step o m).1) as Hwf'.
  { destruct o as [slot|c]; cbn [step].
    - unfold bind. pose proof (well_formed_connect slot m Hwf) as H.
      by destruct (connect slot m) as [m1 [c1|flt]].
    - by apply well_formed_disconnect. }
  destruct (step o m) as [m1 [[]|flt]]; cbn [fst] in *; [by apply IH|done].
Qed.

(** A slot of which the connection has been disconnected is not called by
    an [emit] that comes later, whatever is connected and disconnected in
    between. *)
Lemma disconnected_not_invoked m c conn it ops cat a :
  well_formed m →
  conns m !! c = Some conn →
  erase_func conn = Some (erase_lambda it) →
  (disconnect c m).2 = Ok () →
  ∃ calls,
    invocations (trace (emit cat a (run ops (disconnect c m).1).1).1)
      = invocations (trace (run ops (disconnect c m).1).1) ++ calls ∧
    (it ∉ calls.*1).
Proof.
  intros [Hnd Hal] Hc Hf Hok.
  assert (it ∈ nodes (slots_ m)) as Hin.
  { destruct (decide (it ∈ nodes (slots_ m))) as [|Hout]; [done|].
    destruct (disconnect_dangling c conn it m Hc Hf Hout) as (m' & Hd & _).
    by rewrite Hd in Hok. }
  assert ((it ∉ nodes (slots_ (disconnect c m).1)) ∧ it < next_node (disconnect c m).1)
    as [Hout Hlt].
  { rewrite (disconnect_armed c conn it) by done. cbn [fst slots_ next_node]. split.
    - by apply unlink_removes.
    - rewrite Forall_forall in Hal. by apply Hal. }
  destruct (retired_run it ops _ Hout Hlt) as [Hout' _].
  destruct (emit_invocations cat a (run ops (disconnect c m).1).1)
    as (calls & Hinv & _ & Hpre & _).
  exists calls. split; [done|]. intros Hcall. apply Hout'.
  destruct Hpre as [rest ->]. apply elem_of_app. by left.
Qed.

(** *** Programs of connects and disconnects *)

Lemma run_from (k : nat) (D : list nat) (L : list (nat * slot_type)) ops m :
  next_node m = k → next_conn m = k →
  Forall (λ c, c < k) D →
  L.*1 = seq 0 k →
  (∀ c, c < k →
     conns m !! c =
       Some {| erase_func := Some (if decide (c ∈ D) then empty_lambda else erase_lambda c);
               scoped := false |}) →
  slots_ m = filter (λ x, x.1 ∉ D) L →
  well_formed_from k ops →
  (run ops m).2 = Ok () ∧
  slots_ (run ops m).1
    = filter (λ x, x.1 ∉ D ++ disconnected ops) (L ++ connected_from k ops).
Proof.
  revert k D L m. induction ops as [|[slot|c] ops IH]; intros k D L m Hn Hc HD HL Hconns Hs Hwf.
  - cbn. by rewrite !app_nil_r.
  - cbn [run step well_formed_from connected_from disconnected omap] in *.
    unfold bind. rewrite connect_spec. cbn [ret].
    match goal with |- context [run ops ?m1] =>
      destruct (IH (S k) D (L ++ [(k, slot)]) m1) as [Hres Hslots] end;
      cbn [next_node next_conn conns slots_]; try lia; try done.
    + eapply Forall_impl; [exact HD|]. cbn. lia.
    + rewrite fmap_app, HL, seq_S. done.
    + intros c Hlt. rewrite Hn, Hc in *. destruct (decide (c = k)) as [->|Hne].
      * rewrite lookup_insert_eq. rewrite decide_False; [done|].
        intros Hin. rewrite Forall_forall in HD. specialize (HD _ Hin). cbn in HD. lia.
      * rewrite lookup_insert_ne by done. apply Hconns. lia.
    + rewrite filter_app, Hs, Hn. f_equal. rewrite filter_cons_True; [done|]. cbn.
      intros Hin. rewrite Forall_forall in HD. specialize (HD _ Hin). cbn in HD. lia.
    + split; [done|]. rewrite Hslots. by rewrite <- app_assoc.
  - cbn [run step well_formed_from connected_from disconnected omap] in *.
    destruct Hwf as [Hlt Hwf]. unfold bind.
    assert (NoDup (nodes (slots_ m))) as Hnd.
    { rewrite Hs. unfold nodes. eapply sublist_NoDup; [|apply fmap_sublist, sublist_filter].
      rewrite HL. apply NoDup_seq. }
    assert ((disconnect c m).2 = Ok () ∧ next_node (disconnect c m).1 = k ∧
            next_conn (disconnect c m).1 = k ∧
            conns (disconnect c m).1
              = <[c := {| erase_func := Some empty_lambda; scoped := false |}]> (conns m) ∧
            slots_ (disconnect c m).1 = filter (λ x, x.1 ∉ D ++ [c]) L)
      as (Hok & Hn' & Hc' & Hconns' & Hs').
    { specialize (Hconns c Hlt). destruct (decide (c ∈ D)) as [Hin|Hout].
      - rewrite (disconnect_disarmed c _ m Hconns eq_refl). cbn [fst snd].
        split_and!; [done..| |].
        + by rewrite insert_id.
        + rewrite Hs. apply list_filter_iff. intros [n f]. cbn.
          rewrite elem_of_app, list_elem_of_singleton. split; [|tauto].
          intros Hn0 [?| ->]; done.
      - assert (c ∈ nodes (slots_ m)) as Hreg.
        { rewrite Hs. unfold nodes.
          assert (c ∈ L.*1) as Hin by (rewrite HL; apply elem_of_seq; lia).
          apply list_elem_of_fmap in Hin as [[n f] [-> Hin]].
          apply list_elem_of_fmap. exists (n, f). split; [done|].
          by apply list_elem_of_filter. }
        rewrite (disconnect_armed c _ c m Hconns eq_refl Hreg). cbn [fst snd slots_ next_node next_conn conns scoped].
        split_and!; [done..|].
        rewrite unlink_filter by done. rewrite Hs, list_filter_filter.
        apply list_filter_iff. intros [n f]. cbn.
        rewrite elem_of_app, list_elem_of_singleton. tauto. }
    destruct (disconnect c m) as [m1 [[]|flt]]; cbn [fst snd] in *; [|done].
    destruct (IH k (D ++ [c]) L m1) as [Hres Hslots]; try done.
    + apply Forall_app. split; [done|]. by apply Forall_singleton.
    + intros c' Hlt'. rewrite Hconns'. destruct (decide (c' = c)) as [->|Hne].
      * rewrite lookup_insert_eq. rewrite decide_True; [done|].
        apply elem_of_app. right. by left.
      * rewrite lookup_insert_ne by done. rewrite (Hconns c' Hlt').
        do 3 f_equal. apply decide_ext. rewrite elem_of_app, list_elem_of_singleton. tauto.
    + split; [done|]. rewrite Hslots. by rewrite <- app_assoc.
Qed.

(** C2.  A program of connects and disconnects that starts on a new signal
    and disconnects only connections it has made before runs to its end,
    and the registry then holds the slots of the connects that have not been
    disconnected, in the order of their connects. *)
Theorem registry_after_program ops w :
  well_formed_from 0 ops →
  (run ops (new_signal w)).2 = Ok () ∧
  slots_ (run ops (new_signal w)).1 = surviving ops.
Proof.
  intros Hwf.
  destruct (run_from 0 [] [] ops (new_signal w)) as [Hres Hslots]; try done.
  intros c Hc. lia.
Qed.

(** *** The same callable connected twice *)

(** C10.  Two connects of the same callable [f] to a well-formed signal
    return two different connections and append two entries, in two
    different nodes, both holding [f].  An [emit] whose slots all return
    calls the slots registered before and then both entries.  Disconnecting
    either connection returns and removes the entry of that connection only:
    the other entry stays where it was, and an [emit] still calls it. *)
Theorem connect_same_callable_twice f m :
  well_formed m →
  let n1 := next_node m in
  let n2 := S (next_node m) in
  let c1 := next_conn m in
  let c2 := S (next_conn m) in
  let m2 := (connect f (connect f m).1).1 in
  (connect f m).2 = Ok c1 ∧ (connect f (connect f m).1).2 = Ok c2 ∧
  c1 ≠ c2 ∧ n1 ≠ n2 ∧
  slots_ m2 = slots_ m ++ [(n1, f); (n2, f)] ∧
  (∀ cat a,
     all_return (initialisation FuncSig_param cat) (slots_ m2) a (world m2) →
     ∃ a' calls,
       (emit cat a m2).2 = Ok a' ∧
       invocations (trace (emit cat a m2).1) = invocations (trace m2) ++ calls ∧
       calls.*1 = nodes (slots_ m) ++ [n1; n2]) ∧
  ((disconnect c1 m2).2 = Ok () ∧
   slots_ (disconnect c1 m2).1 = slots_ m ++ [(n2, f)] ∧
   ∀ cat a,
     all_return (initialisation FuncSig_param cat) (slots_ m ++ [(n2, f)]) a (world m2) →
     ∃ a' calls,
       (emit cat a (disconnect c1 m2).1).2 = Ok a' ∧
       invocations (trace (emit cat a (disconnect c1 m2).1).1)
         = invocations (trace (disconnect c1 m2).1) ++ calls ∧
       calls.*1 = nodes (slots_ m) ++ [n2]) ∧
  ((disconnect c2 m2).2 = Ok () ∧
   slots_ (disconnect c2 m2).1 = slots_ m ++ [(n1, f)] ∧
   ∀ cat a,
     all_return (initialisation FuncSig_param cat) (slots_ m ++ [(n1, f)]) a (world m2) →
     ∃ a' calls,
       (emit cat a (disconnect c2 m2).1).2 = Ok a' ∧
       invocations (trace (emit cat a (disconnect c2 m2).1).1)
         = invocations (trace (disconnect c2 m2).1) ++ calls ∧
       calls.*1 = nodes (slots_ m) ++ [n1]).
Proof.
  intros [Hnd Hal] n1 n2 c1 c2 m2.
  assert (n1 ∉ nodes (slots_ m)) as Hn1.
  { intros Hin. rewrite Forall_forall in Hal. specialize (Hal _ Hin). cbn in Hal. lia. }
  assert (n2 ∉ nodes (slots_ m ++ [(n1, f)])) as Hn2.
  { unfold nodes. rewrite fmap_app, elem_of_app. cbn. rewrite list_elem_of_singleton.
    intros [Hin|?]; [|subst n1 n2; lia].
    rewrite Forall_forall in Hal. specialize (Hal _ Hin). cbn in Hal. subst n2. lia. }
  assert (slots_ m2 = slots_ m ++ [(n1, f); (n2, f)]) as Hs.
  { subst m2. rewrite !connect_spec. cbn [fst slots_ next_node]. by rewrite <- app_assoc. }
  assert (world m2 = world m) as Hw by (subst m2; by rewrite !connect_spec).
  assert (conns m2 !! c1 = Some {| erase_func := Some (erase_lambda n1); scoped := false |}) as Hc1.
  { subst m2. rewrite !connect_spec. cbn [fst conns next_conn next_node].
    rewrite lookup_insert_ne by (subst c1; lia). apply lookup_insert_eq. }
  assert (conns m2 !! c2 = Some {| erase_func := Some (erase_lambda n2); scoped := false |}) as Hc2.
  { subst m2. rewrite !connect_spec. cbn [fst conns next_conn next_node].
    apply lookup_insert_eq. }
  assert (unlink n1 (slots_ m2) = slots_ m ++ [(n2, f)]) as Hu1.
  { rewrite Hs. by apply unlink_app_here. }
  assert (unlink n2 (slots_ m2) = slots_ m ++ [(n1, f)]) as Hu2.
  { rewrite Hs. change [(n1, f); (n2, f)] with ([(n1, f)] ++ [(n2, f)]).
    rewrite app_assoc, unlink_app_here by done. by rewrite app_nil_r. }
  split_and!.
  - by rewrite connect_spec.
  - by rewrite !connect_spec.
  - subst c1 c2. lia.
  - subst n1 n2. lia.
  - done.
  - intros cat a Hret.
    destruct (emit_invokes_each_once cat a m2 Hret) as (a' & calls & Hok & Hinv & Hcalls).
    exists a', calls. split_and!; [done..|]. rewrite Hcalls, Hs. unfold nodes.
    by rewrite fmap_app.
  - rewrite (disconnect_armed c1 _ n1 m2 Hc1 eq_refl); [done|].
    rewrite Hs. unfold nodes. rewrite fmap_app, elem_of_app. right. by left.
  - rewrite (disconnect_armed c1 _ n1 m2 Hc1 eq_refl); [done|].
    rewrite Hs. unfold nodes. rewrite fmap_app, elem_of_app. right. by left.
  - intros cat a Hret.
    assert (n1 ∈ nodes (slots_ m2)) as Hin.
    { rewrite Hs. unfold nodes. rewrite fmap_app, elem_of_app. right. by left. }
    match goal with |- context [emit cat a ?m3] =>
      destruct (emit_invokes_each_once cat a m3) as (a' & calls & Hok & Hinv & Hcalls) end.
    { by rewrite (disconnect_armed c1 _ n1 m2 Hc1 eq_refl Hin), Hu1. }
    exists a', calls. split_and!; [done..|]. rewrite Hcalls.
    rewrite (disconnect_armed c1 _ n1 m2 Hc1 eq_refl Hin). cbn [fst slots_].
    rewrite Hu1. unfold nodes. by rewrite fmap_app.
  - rewrite (disconnect_armed c2 _ n2 m2 Hc2 eq_refl); [done|].
    rewrite Hs. unfold nodes. rewrite fmap_app, elem_of_app. right. right. by left.
  - rewrite (disconnect_armed c2 _ n2 m2 Hc2 eq_refl); [done|].
    rewrite Hs. unfold nodes. rewrite fmap_app, elem_of_app. right. right. by left.
  - intros cat a Hret.
    assert (n2 ∈ nodes (slots_ m2)) as Hin.
    { rewrite Hs. unfold nodes. rewrite fmap_app, elem_of_app. right. right. by left. }
    match goal with |- context [emit cat a ?m3] =>
      destruct (emit_invokes_each_once cat a m3) as (a' & calls & Hok & Hinv & Hcalls) end.
    { by rewrite (disconnect_armed c2 _ n2 m2 Hc2 eq_refl Hin), Hu2. }
    exists a', calls. split_and!; [done..|]. rewrite Hcalls.
    rewrite (disconnect_armed c2 _ n2 m2 Hc2 eq_refl Hin). cbn [fst slots_].
    rewrite Hu2. unfold nodes. by rewrite fmap_app.
Qed.

(** *** Scoped connections *)

(** The destructor of a scoped connection that still holds its erase lambda
    disconnects: it erases the node of the connection, once. *)
Lemma destroy_scoped_disconnects_once c conn it m :
  conns m !! c = Some conn →
  scoped conn = true →
  erase_func conn = Some (erase_lambda it) →
  it ∈ nodes (slots_ m) →
  (destroy c m).2 = Ok () ∧
  slots_ (destroy c m).1 = unlink it (slots_ m) ∧
  erasures (trace (destroy c m).1) = erasures (trace m) ++ [it] ∧
  conns (destroy c m).1 !! c = None.
Proof.
  intros Hc Hsc Hf Hin. unfold destroy, bind, load, noexcept. rewrite Hc, Hsc.
  rewrite (disconnect_armed c conn it m Hc Hf Hin).
  cbn -[erasures guarded lookup delete insert].
  split_and!; [done..| |].
  - by rewrite erasures_app, erasures_guarded.
  - apply lookup_delete_eq.
Qed.

(** The destructor of a scoped connection that has been moved from, with
    its [erase_func] left empty, ends the program. *)
Lemma destroy_scoped_moved_from c conn m :
  conns m !! c = Some conn →
  scoped conn = true →
  erase_func conn = None →
  (destroy c m).2 = Fault terminate.
Proof.
  intros Hc Hsc Hf. unfold destroy, bind, load, noexcept. rewrite Hc, Hsc.
  by rewrite (disconnect_moved_from c conn m Hc Hf).
Qed.

(** *** Arguments passed as rvalues to parameters taken by value *)

(** The first slot's parameter is move-constructed from the caller's
    argument, so the second slot is called with what the move has left. *)
Lemma emit_loop_rvalue_by_value n1 f1 n2 f2 l a m r :
  FuncSig_param = by_value →
  result (f1 a (world m)) = Returned r →
  ∃ calls,
    trace (emit_loop ((n1, f1) :: (n2, f2) :: l) rvalue a m).1
      = trace m ++ (invoke_event <$> (n1, a) :: (n2, moved_from a) :: calls).
Proof.
  intros Hby Hr. cbn [emit_loop]. unfold bind at 1.
  rewrite (invoke_returns _ _ _ _ _ r Hr). rewrite Hby.
  cbn [fst initialisation args_after]. unfold bind.
  match goal with |- context [invoke n2 f2 _ _ ?m1] =>
    destruct (result (f2 (moved_from a) (world m1))) as [r2|e2] eqn:Hr2 end.
  - rewrite (invoke_returns _ _ _ _ _ r2 Hr2). cbn [fst].
    match goal with |- context [emit_loop l rvalue ?a2 ?m2] =>
      destruct (emit_loop_calls l rvalue a2 m2) as (calls & Hcalls & _) end.
    exists calls. rewrite Hcalls. cbn [trace]. by rewrite <- !app_assoc.
  - rewrite (invoke_throws _ _ _ _ _ e2 Hr2). cbn [fst trace].
    exists []. by rewrite <- !app_assoc.
Qed.

Lemma emit_rvalue_by_value_second_slot n1 f1 n2 f2 l a m r :
  FuncSig_param = by_value →
  slots_ m = (n1, f1) :: (n2, f2) :: l →
  result (f1 a (world m)) = Returned r →
  ∃ calls,
    invocations (trace (emit rvalue a m).1)
      = invocations (trace m) ++ (n1, a) :: (n2, moved_from a) :: calls.
Proof.
  intros Hby Hs Hr.
  destruct (emit_unfold rvalue a m) as (m0 & _ & Hw & _ & _ & _ & Htr).
  rewrite Hs in Htr. rewrite <- Hw in Hr.
  destruct (emit_loop_rvalue_by_value n1 f1 n2 f2 l a m0 r Hby Hr) as (calls & Hcalls).
  exists calls. rewrite (Htr _ Hcalls).
  by rewrite invocations_app, invocations_guarded, invocations_invoke_events.
Qed.

End Facts.

(** ** The scenarios *)

Section Scenarios.

Local Open Scope Z_scope.
Local Open Scope string_scope.
Local Open Scope list_scope.

(** C1, at the input on which it fails.  [emit] forwards its argument with
    [std::forward] to every slot in turn.  On a
    [ktsignal<void(std::unique_ptr<int>)>] with two slots,
    [emit(std::make_unique<int>(5))] passes an rvalue to a parameter taken by
    value: the first slot receives the pointer to 5, the second slot
    receives the null pointer that the move has left, and so does the
    caller. *)
Theorem emit_moves_from_rvalue_argument :
  (emit (Σ := void_unique_ptr) rvalue (Some 5) two_pointer_slots).2 = Ok None ∧
  invocations (trace (emit (Σ := void_unique_ptr) rvalue (Some 5) two_pointer_slots).1)
    = [(0%nat, Some 5); (1%nat, None)] ∧
  world (emit (Σ := void_unique_ptr) rvalue (Some 5) two_pointer_slots).1
    = [("A", Some 5); ("B", None)].
Proof. vm_compute. done. Qed.

(** C6, at the input on which it fails.  A scoped connection is made on a
    new signal and moved into a second object; then both objects are
    destroyed, in either order.  If the move leaves [erase_func] empty, the
    destructor of the moved-from object calls an empty [std::function] and
    the program is terminated; if the move leaves the target in place, the
    second destructor erases through an iterator that the first has
    invalidated.  Either way the two destructors do not amount to one
    disconnect that ends well. *)
Theorem moved_scoped_connection_destructor_fails `{Σ : instantiation}
    (mf : moved_from_function) (slot : slot_type) (w : world_type) :
  (moved_scoped_block mf slot (new_signal w)).2
    = Fault (match mf with
             | leaves_empty => terminate
             | leaves_target => undefined_behaviour
             end) ∧
  (moved_scoped_temporary mf slot (new_signal w)).2
    = Fault (match mf with
             | leaves_empty => terminate
             | leaves_target => undefined_behaviour
             end).
Proof.
  destruct Σ as [T R W E mv pk [[] []]], mf; vm_compute; done.
Qed.

(** C7.  On a well-formed signal, once the [disconnect] of a connection
    that holds the erase lambda of node [it] has returned, then, whatever
    connects and disconnects follow, a later [emit] does not call the slot of
    [it].  In the scenario, with A, B and C connected in this order and B
    disconnected, [emit(5)] returns after calling A with 5 and then C with 5,
    and B is not called; this holds under each of the three locking
    policies. *)
Theorem disconnected_slot_is_not_invoked :
  (∀ (Σ : instantiation) (m : machine) (c : nat) (conn : ktsignal_connection)
     (it : nat) (ops : list op) (cat : value_category) (a : args_type),
     well_formed m →
     conns m !! c = Some conn →
     erase_func conn = Some (erase_lambda it) →
     (disconnect c m).2 = Ok () →
     ∃ calls,
       invocations (trace (emit cat a (run ops (disconnect c m).1).1).1)
         = invocations (trace (run ops (disconnect c m).1).1) ++ calls ∧
       (it ∉ calls.*1)) ∧
  (∀ pol,
     (abc_scenario pol).2 = Ok 5 ∧
     invocations (trace (abc_scenario pol).1) = [(0%nat, 5); (2%nat, 5)] ∧
     world (abc_scenario pol).1 = [("A", 5); ("C", 5)]).
Proof.
  split.
  - intros Σ m c conn it ops cat a. apply disconnected_not_invoked.
  - intros [[] []]; vm_compute; done.
Qed.

Lemma well_formed_abc_connected pol : well_formed (abc_connected pol).
Proof. apply well_formed_run, well_formed_new_signal. Qed.

Lemma disconnected_slot_is_not_invoked_witness :
  ∃ calls,
    invocations (trace (emit (Σ := void_int ktsignal_threadsafe) rvalue 5
                          (run [] (disconnect 1 (abc_connected ktsignal_threadsafe)).1).1).1)
      = invocations (trace (run (Σ := void_int ktsignal_threadsafe) []
                              (disconnect 1 (abc_connected ktsignal_threadsafe)).1).1) ++ calls ∧
    (1%nat ∉ calls.*1).
Proof.
  apply (proj1 disconnected_slot_is_not_invoked (void_int ktsignal_threadsafe)
           (abc_connected ktsignal_threadsafe) 1%nat
           {| erase_func := Some (erase_lambda 1); scoped := false |} 1%nat []
           rvalue 5).
  - apply well_formed_abc_connected.
  - vm_compute. reflexivity.
  - reflexivity.
  - vm_compute. reflexivity.
Defined.

Lemma registry_after_program_witness :
  (run (abc_program ktsignal) (new_signal (Σ := void_int ktsignal) [])).2 = Ok () ∧
  slots_ (run (abc_program ktsignal) (new_signal (Σ := void_int ktsignal) [])).1
    = surviving (abc_program ktsignal).
Proof.
  apply (registry_after_program (Σ := void_int ktsignal) (abc_program ktsignal) []).
  cbn. lia.
Defined.

Lemma disconnect_idempotent_witness :
  ∃ m', disconnect 1 (abc_connected ktsignal) = (m', Ok ()) ∧
        slots_ m' = unlink 1 (slots_ (abc_connected ktsignal)) ∧
        erasures (trace m') = erasures (trace (abc_connected ktsignal)) ++ [1%nat] ∧
        ∀ n, disconnect_times n 1 m' = (m', Ok ()).
Proof.
  apply (proj2 (disconnect_idempotent (Σ := void_int ktsignal) 1 (abc_connected ktsignal))
           {| erase_func := Some (erase_lambda 1); scoped := false |} 1%nat).
  - vm_compute. reflexivity.
  - reflexivity.
  - vm_compute. right. left.
Defined.

Lemma emit_iterate_refines_witness :
  (range_for 1 (emit_iterate (Σ := int_int ktsignal_threadsafe) caller_object 7)
     (three_answers ktsignal_threadsafe)).2
    = (call_one_by_one (Σ := int_int ktsignal_threadsafe)
         (take 1 (slots_ (three_answers ktsignal_threadsafe))) 7
         (three_answers ktsignal_threadsafe)).2.
Proof.
  apply (emit_iterate_refines (Σ := int_int ktsignal_threadsafe) 1 7
           (three_answers ktsignal_threadsafe)).
  vm_compute. apply (NoDup_seq 0 3).
Defined.

Lemma emit_fail_fast_witness :
  (emit (Σ := void_int ktsignal_threadsafe) rvalue 5
     (second_throws ktsignal_threadsafe)).2
    = Fault (slot_exception (Σ := void_int ktsignal_threadsafe) "boom").
Proof.
  apply (emit_fail_fast (Σ := void_int ktsignal_threadsafe)
           (second_throws ktsignal_threadsafe) rvalue 5
           [(0%nat, recorder "A")] 1%nat (throwing "B" "boom") [(2%nat, recorder "C")] "boom").
  - vm_compute. reflexivity.
  - cbn. exists (). split; reflexivity.
Defined.

Lemma disconnect_erases_at_most_once_witness :
  disconnect_times 3 1 (disconnect 1 (abc_connected ktsignal)).1
    = ((disconnect 1 (abc_connected ktsignal)).1, Ok ()).
Proof.
  apply (disconnect_erases_at_most_once (Σ := void_int ktsignal) 1
           (abc_connected ktsignal) 0).
  vm_compute. reflexivity.
Defined.

Lemma connect_same_callable_twice_witness :
  slots_ (connect (recorder "A")
            (connect (recorder "A") (new_signal (Σ := void_int ktsignal) [])).1).1
    = slots_ (new_signal (Σ := void_int ktsignal) []) ++
      [(0%nat, recorder "A"); (1%nat, recorder "A")].
Proof.
  apply (connect_same_callable_twice (Σ := void_int ktsignal) (recorder "A")
           (new_signal (Σ := void_int ktsignal) [])).
  apply well_formed_new_signal.
Defined.

(** C4, at the input on which it fails: the scenario of the specification
    for result iteration.  Three slots return 1, 2 and 3, and the caller
    runs [for (auto r : sig.emit_iterate(7)) ...].  The range stores a
    reference to the temporary [7], which is destroyed before the loop
    starts, so the first [operator*] reads a destroyed object: the loop is
    undefined and no slot has run, where calling the three slots one by one
    with 7 yields 1, 2 and 3.  With the 7 in a variable of the caller,
    [int x = 7; for (auto r : sig.emit_iterate(x)) ...], the loop does yield
    1, 2 and 3, and taking its first element only runs the first slot
    only. *)
Theorem emit_iterate_reads_destroyed_temporary pol :
  (range_for 3 (emit_iterate (Σ := int_int pol) temporary 7) (three_answers pol)).2
    = Fault undefined_behaviour ∧
  world (range_for 3 (emit_iterate (Σ := int_int pol) temporary 7) (three_answers pol)).1
    = [] ∧
  (range_for 1 (emit_iterate (Σ := int_int pol) temporary 7) (three_answers pol)).2
    = Fault undefined_behaviour ∧
  (call_one_by_one (Σ := int_int pol) (slots_ (three_answers pol)) 7
     (three_answers pol)).2 = Ok (7, [1; 2; 3]) ∧
  (range_for 3 (emit_iterate (Σ := int_int pol) caller_object 7) (three_answers pol)).2
    = Ok (7, [1; 2; 3]) ∧
  (range_for 1 (emit_iterate (Σ := int_int pol) caller_object 7) (three_answers pol)).2
    = Ok (7, [1]) ∧
  world (range_for 1 (emit_iterate (Σ := int_int pol) caller_object 7)
           (three_answers pol)).1
    = [("first", 7)].
Proof. destruct pol as [[] []]; vm_compute; done. Qed.

(** The same loops over a variable of the caller that holds 7. *)
Example emit_iterate_first_of_three pol :
  (range_for 1 (emit_iterate (Σ := int_int pol) caller_object 7) (three_answers pol)).2
    = Ok (7, [1]) ∧
  world (range_for 1 (emit_iterate (Σ := int_int pol) caller_object 7)
           (three_answers pol)).1
    = [("first", 7)].
Proof. destruct pol as [[] []]; vm_compute; done. Qed.

Example emit_iterate_all_of_three pol :
  (range_for 3 (emit_iterate (Σ := int_int pol) caller_object 7) (three_answers pol)).2
    = Ok (7, [1; 2; 3]) ∧
  world (range_for 3 (emit_iterate (Σ := int_int pol) caller_object 7)
           (three_answers pol)).1
    = [("first", 7); ("second", 7); ("third", 7)].
Proof. destruct pol as [[] []]; vm_compute; done. Qed.

End Scenarios.

(** ** A thread alone

    The statements of a thread are those of the operations: a thread that
    runs alone takes a call from its first statement to its last and leaves
    the machine, the event log included, as the operation leaves it. *)

Section SoloThread.

Context {Σ : instantiation}.

Implicit Types (m : machine) (l : slot_container) (a : args_type) (mx : mutex_state).

Lemma can_lock_unlocked x : can_lock x unlocked = true.
Proof. by destruct x. Qed.

Lemma unlocked_by_locked_by x : unlocked_by x (locked_by x unlocked) = unlocked.
Proof. by destruct x. Qed.

(** The only thread takes its next statement. *)
Local Ltac next_statement Hacq :=
  eapply rtc_l;
  [ eapply (step_thread _ 0);
    [ reflexivity
    | cbn; unfold try_lock, unlock; rewrite ?Hacq, ?can_lock_unlocked; cbn; reflexivity ]
  | cbn ].

Lemma solo_connect slot m :
  rtc system_step (solo m (call_connect slot)) (after_call (perform (call_connect slot) m)).
Proof.
  unfold solo, after_call, perform, bind, connect, lock_guard.
  destruct (acquires (mutex_type locking) unique_lock) as [x|] eqn:Hacq;
    do 3 next_statement Hacq; rewrite ?unlocked_by_locked_by; apply rtc_refl.
Qed.

Lemma solo_disconnect c m :
  (disconnect c m).2 ≠ Fault undefined_behaviour →
  rtc system_step (solo m (call_disconnect c)) (after_call (perform (call_disconnect c) m)).
Proof.
  intros Hdef. unfold solo, after_call, perform.
  destruct (conns m !! c) as [conn|] eqn:Hc; [|by rewrite disconnect_dead in Hdef].
  destruct (erase_func conn) as [[it|]|] eqn:Hf.
  - destruct (decide (it ∈ nodes (slots_ m))) as [Hin|Hout]; cycle 1.
    { destruct (disconnect_dangling c conn it m Hc Hf Hout) as (m' & Hd & _).
      by rewrite Hd in Hdef. }
    unfold disconnect, bind, load. rewrite Hc, Hf.
    unfold call, call_closure, lock_guard, erase.
    destruct (acquires (mutex_type locking) unique_lock) as [x|] eqn:Hacq; cbn;
      rewrite decide_True by done; cbn.
    + eapply rtc_l.
      { eapply (step_thread _ 0); [reflexivity|]. cbn. rewrite Hc, Hf. unfold try_lock.
        rewrite Hacq, can_lock_unlocked. reflexivity. }
      eapply rtc_l.
      { eapply (step_thread _ 0); [reflexivity|]. cbn. unfold erase. cbn.
        rewrite decide_True by done. reflexivity. }
      eapply rtc_l.
      { eapply (step_thread _ 0); [reflexivity|]. cbn. rewrite Hc. unfold unlock.
        rewrite Hacq. reflexivity. }
      cbn. rewrite unlocked_by_locked_by. apply rtc_refl.
    + eapply rtc_l.
      { eapply (step_thread _ 0); [reflexivity|]. cbn. rewrite Hc, Hf. unfold try_lock.
        rewrite Hacq. reflexivity. }
      eapply rtc_l.
      { eapply (step_thread _ 0); [reflexivity|]. cbn. unfold erase.
        rewrite decide_True by done. reflexivity. }
      eapply rtc_l.
      { eapply (step_thread _ 0); [reflexivity|]. cbn. rewrite Hc. unfold unlock.
        rewrite Hacq. reflexivity. }
      cbn. apply rtc_refl.
  - unfold disconnect, bind, load. rewrite Hc, Hf. cbn.
    eapply rtc_l; [eapply (step_thread _ 0); [reflexivity|]|cbn; apply rtc_refl].
    cbn. by rewrite Hc, Hf.
  - unfold disconnect, bind, load. rewrite Hc, Hf. cbn.
    eapply rtc_l; [eapply (step_thread _ 0); [reflexivity|]|cbn; apply rtc_refl].
    cbn. by rewrite Hc, Hf.
Qed.

(** The loop of [emit], from the position that heads [l2] to the release of
    the lock. *)
Lemma solo_emit_loop l1 l2 cat a m mx rest :
  slots_ m = l1 ++ l2 →
  NoDup (nodes (l1 ++ l2)) →
  rtc system_step
    {| shared := m; mutex := mx;
       threads := [ {| at_ := in_emit (first_position l2) cat a; todo := rest |} ] |}
    {| shared := (unlock (emit_locker locking) (emit_loop l2 cat a m).1 mx).1;
       mutex := (unlock (emit_locker locking) (emit_loop l2 cat a m).1 mx).2;
       threads := [ {| at_ := match (emit_loop l2 cat a m).2 with
                              | Ok _ => outside
                              | Fault f => stopped f
                              end;
                       todo := rest |} ] |}.
Proof.
  revert l1 a m. induction l2 as [|[n f] l2 IH]; intros l1 a m Hs Hnd.
  - cbn. destruct (unlock (emit_locker locking) m mx) as [m' mx'] eqn:Hun.
    eapply rtc_l; [eapply (step_thread _ 0); [reflexivity|]|cbn; apply rtc_refl].
    cbn. by rewrite Hun.
  - assert (n ∉ nodes l1) as Hn.
    { unfold nodes in Hnd. rewrite fmap_app in Hnd.
      apply NoDup_app in Hnd as (_ & Hdisj & _). intros Hin. apply (Hdisj n Hin). by left. }
    cbn [first_position emit_loop]. unfold bind.
    destruct (result (f a (world m))) as [r|e] eqn:Hr.
    + rewrite (invoke_returns _ _ _ _ _ r Hr). cbn [fst].
      eapply rtc_l.
      { eapply (step_thread _ 0); [reflexivity|]. cbn [thread_step at_ shared mutex todo].
        rewrite Hs, (slot_at_app_here l1 n f l2 Hn), (successor_app_here l1 n f l2 Hn).
        rewrite (invoke_returns _ _ _ _ _ r Hr). reflexivity. }
      cbn. apply (IH (l1 ++ [(n, f)])); cbn [slots_]; rewrite <- app_assoc; done.
    + rewrite (invoke_throws _ _ _ _ _ e Hr). cbn [fst snd].
      eapply rtc_l.
      { eapply (step_thread _ 0); [reflexivity|]. cbn [thread_step at_ shared mutex todo].
        rewrite Hs, (slot_at_app_here l1 n f l2 Hn), (successor_app_here l1 n f l2 Hn).
        rewrite (invoke_throws _ _ _ _ _ e Hr). reflexivity. }
      match goal with |- context [unlock ?k ?m1 mx] =>
        destruct (unlock k m1 mx) as [m' mx'] eqn:Hun end.
      eapply rtc_l; [eapply (step_thread _ 0); [reflexivity|]|cbn; apply rtc_refl].
      cbn. by rewrite Hun.
Qed.

Lemma solo_emit cat a m :
  NoDup (nodes (slots_ m)) →
  rtc system_step (solo m (call_emit cat a)) (after_call (perform (call_emit cat a) m)).
Proof.
  intros Hnd. unfold solo, after_call, perform, bind, emit, lock_guard.
  destruct (acquires (mutex_type locking) (emit_locker locking)) as [x|] eqn:Hacq.
  - eapply rtc_l.
    { eapply (step_thread _ 0); [reflexivity|]. cbn. unfold try_lock.
      rewrite Hacq, can_lock_unlocked. reflexivity. }
    cbn. eapply rtc_trans.
    { apply (solo_emit_loop [] (slots_ m)); [done|done]. }
    unfold unlock. rewrite Hacq. cbn.
    destruct (emit_loop (slots_ m) cat a (log (EvLock x) m)) as [m' [a'|flt]];
      cbn; rewrite unlocked_by_locked_by; apply rtc_refl.
  - eapply rtc_l.
    { eapply (step_thread _ 0); [reflexivity|]. cbn. unfold try_lock.
      rewrite Hacq. reflexivity. }
    cbn. eapply rtc_trans.
    { apply (solo_emit_loop [] (slots_ m)); [done|done]. }
    unfold unlock. rewrite Hacq. cbn.
    destruct (emit_loop (slots_ m) cat a m) as [m' [a'|flt]]; cbn; apply rtc_refl.
Qed.

(** A thread alone performs a call as the operation performs it, unless the
    operation is undefined. *)
Lemma solo_thread_performs (call : api_call) m :
  NoDup (nodes (slots_ m)) →
  (perform call m).2 ≠ Fault undefined_behaviour →
  rtc system_step (solo m call) (after_call (perform call m)).
Proof.
  intros Hnd Hdef. destruct call as [slot|c|cat a].
  - apply solo_connect.
  - by apply solo_disconnect.
  - by apply solo_emit.
Qed.

End SoloThread.

(** ** Threads under the policy of shared emission *)

Section ThreadFacts.

Context {Σ : instantiation}.
Hypothesis shared_emission : locking = ktsignal_threadsafe.

Implicit Types (s : system) (t : thread) (ths : list thread).
Implicit Types (P : program_point → bool) (mx : mutex_state).

Lemma count_insert P ths i t t' :
  ths !! i = Some t →
  count P (<[i := t']> ths) + Nat.b2n (P (at_ t)) = count P ths + Nat.b2n (P (at_ t')).
Proof.
  revert i. induction ths as [|t0 ths IH]; intros [|i] Hi; try done.
  - cbn in Hi. simplify_eq. cbn. destruct (P (at_ t)), (P (at_ t')); cbn; lia.
  - cbn in Hi. cbn [list_insert count]. specialize (IH i Hi).
    change (<[S i := t']> (t0 :: ths)) with (t0 :: <[i := t']> ths). cbn [count]. lia.
Qed.

Lemma count_positive P ths i t :
  ths !! i = Some t → P (at_ t) = true → 1 ≤ count P ths.
Proof.
  revert i. induction ths as [|t0 ths IH]; intros [|i] Hi HP; try done.
  - cbn in Hi. simplify_eq. cbn. rewrite HP. lia.
  - cbn in Hi. cbn. specialize (IH i Hi HP). lia.
Qed.

Lemma count_at_most_one P ths i j t t' :
  count P ths ≤ 1 →
  ths !! i = Some t → P (at_ t) = true →
  ths !! j = Some t' → P (at_ t') = true →
  i = j.
Proof.
  revert i j. induction ths as [|t0 ths IH]; intros [|i] [|j] Hc Hi HP Hj HP'; try done.
  - cbn in Hi, Hc. simplify_eq. rewrite HP in Hc.
    pose proof (count_positive P ths j t' Hj HP'). lia.
  - cbn in Hj, Hc. simplify_eq. rewrite HP' in Hc.
    pose proof (count_positive P ths i t Hi HP). lia.
  - f_equal. apply IH; try done. cbn in Hc. lia.
Qed.

Lemma count_initial P ths :
  P outside = false → Forall (λ t, at_ t = outside) ths → count P ths = 0.
Proof.
  intros HP. induction 1 as [|t ths Ht _ IH]; [done|]. cbn. by rewrite Ht, HP, IH.
Qed.

(** What one statement of a thread does to the mutex, against what it does
    to the thread's being in [emit] or in a mutation. *)
Lemma thread_step_mutex t m mx t' m' mx' :
  thread_step t m mx = Some (t', m', mx') →
  (emitting (at_ t) = true → 1 ≤ readers mx) →
  (mutating (at_ t) = true → writer mx = true) →
  (writer mx = true → readers mx = 0) →
  readers mx' + Nat.b2n (emitting (at_ t)) = readers mx + Nat.b2n (emitting (at_ t')) ∧
  Nat.b2n (writer mx') + Nat.b2n (mutating (at_ t))
    = Nat.b2n (writer mx) + Nat.b2n (mutating (at_ t')) ∧
  (writer mx' = true → readers mx' = 0).
Proof using shared_emission.
  intros Hstep He Hm Hw. destruct t as [pc rest], mx as [wr rd].
  unfold thread_step, enter, try_lock, unlock in Hstep. rewrite shared_emission in Hstep.
  cbn in *.
  repeat (case_match; simplify_eq; cbn in * );
    repeat match goal with
    | H : _ && _ = true |- _ => apply andb_true_iff in H as [? ?]
    | H : negb _ = true |- _ => apply negb_true_iff in H
    | H : bool_decide _ = true |- _ => apply bool_decide_eq_true in H
    | H : true = true → _ |- _ => specialize (H eq_refl)
    end;
    simplify_eq; cbn in *; split_and!; try lia; try done; intros; simplify_eq; lia.
Qed.

Lemma mutex_invariant_initial s : initial s → mutex_invariant s.
Proof.
  intros [Hmx Hths]. unfold mutex_invariant. rewrite Hmx. cbn.
  by rewrite !count_initial.
Qed.

Lemma mutex_invariant_step s s' :
  mutex_invariant s → system_step s s' → mutex_invariant s'.
Proof using shared_emission.
  intros (Hrd & Hwr & Hex) [i t t' m' mx' Hi Hstep].
  destruct (thread_step_mutex t (shared s) (mutex s) t' m' mx' Hstep) as (Hrd' & Hwr' & Hex').
  - intros He. rewrite Hrd. by eapply count_positive.
  - intros Hm. pose proof (count_positive mutating _ _ _ Hi Hm) as Hpos.
    rewrite Hwr in Hpos. destruct (writer (mutex s)); [done|lia].
  - done.
  - pose proof (count_insert emitting _ _ _ t' Hi).
    pose proof (count_insert mutating _ _ _ t' Hi).
    unfold mutex_invariant. cbn [mutex threads].
    change (if writer mx' then 1 else 0) with (Nat.b2n (writer mx')).
    change (if writer (mutex s) then 1 else 0) with (Nat.b2n (writer (mutex s))) in Hwr.
    split_and!; [lia|lia|done].
Qed.

Lemma mutex_invariant_reachable s : reachable s → mutex_invariant s.
Proof using shared_emission.
  intros (s0 & Hinit & Hsteps). apply mutex_invariant_initial in Hinit.
  induction Hsteps as [|s1 s2 s3 Hstep _ IH]; [done|].
  apply IH. by eapply mutex_invariant_step.
Qed.

(** Under the policy the three guarded blocks are bracketed by these events. *)
Lemma guarded_unique evs :
  guarded unique_lock evs = [EvLock Exclusive] ++ evs ++ [EvUnlock Exclusive].
Proof using shared_emission. unfold guarded. by rewrite shared_emission. Qed.

Lemma guarded_emit evs :
  guarded (emit_locker locking) evs = [EvLock Shared] ++ evs ++ [EvUnlock Shared].
Proof using shared_emission. unfold guarded. by rewrite shared_emission. Qed.

(** While a thread is in a mutation it holds the mutex exclusively, no
    thread is in [emit], and no other thread is in a mutation. *)
Lemma mutation_excludes s i t :
  reachable s →
  threads s !! i = Some t → mutating (at_ t) = true →
  writer (mutex s) = true ∧ readers (mutex s) = 0 ∧
  ∀ j t', threads s !! j = Some t' →
          emitting (at_ t') = false ∧ (mutating (at_ t') = true → j = i).
Proof using shared_emission.
  intros Hreach Hi Hm. destruct (mutex_invariant_reachable s Hreach) as (Hrd & Hwr & Hex).
  pose proof (count_positive mutating _ _ _ Hi Hm) as Hpos.
  assert (writer (mutex s) = true) as Hw.
  { rewrite Hwr in Hpos. destruct (writer (mutex s)); [done|lia]. }
  split_and!; [done|by apply Hex|]. intros j t' Hj. split.
  - destruct (emitting (at_ t')) eqn:He; [|done].
    pose proof (count_positive emitting _ _ _ Hj He). rewrite <- Hrd, (Hex Hw) in *. lia.
  - intros Hm'. eapply (count_at_most_one mutating); try done.
    rewrite Hwr, Hw. done.
Qed.

(** While a thread is in [emit] it holds the mutex shared, and nobody holds
    it exclusively. *)
Lemma emission_shares s i t :
  reachable s →
  threads s !! i = Some t → emitting (at_ t) = true →
  writer (mutex s) = false ∧ 1 ≤ readers (mutex s).
Proof using shared_emission.
  intros Hreach Hi He. destruct (mutex_invariant_reachable s Hreach) as (Hrd & Hwr & Hex).
  pose proof (count_positive emitting _ _ _ Hi He) as Hpos. rewrite <- Hrd in Hpos.
  split; [|done]. destruct (writer (mutex s)) eqn:Hw; [|done].
  specialize (Hex eq_refl). lia.
Qed.

End ThreadFacts.

(** Without a mutex nothing keeps a thread out of [connect] while another
    is in [emit]: the exclusion below is the work of the locks. *)
Lemma no_locking_allows_overlap :
  ∃ s : system (Σ := void_int ktsignal),
    reachable s ∧
    ∃ t1 t2, threads s = [t1; t2] ∧
             emitting (at_ t1) = true ∧ mutating (at_ t2) = true.
Proof.
  eexists. split.
  - exists (emitter_and_connector ktsignal). split.
    + split; [done|]. by repeat constructor.
    + eapply rtc_l; [eapply (step_thread _ 0); reflexivity|].
      eapply rtc_l; [eapply (step_thread _ 1); reflexivity|].
      apply rtc_refl.
  - cbn. by eexists _, _.
Qed.

Lemma initial_two_emitters : initial two_emitters.
Proof. split; [done|]. by repeat constructor. Qed.

(** C9.  Under the policy of shared emission ([thread_safe] and not
    [emit_thread_safe]), [connect] and the erase lambda of [disconnect] work
    between a [lock] and an [unlock] of the mutex, and [emit] calls the
    slots between a [lock_shared] and an [unlock_shared].  In every state
    that threads calling [connect], [disconnect] and [emit] can reach, a
    thread that is in a mutation holds the mutex exclusively, while no
    thread is in [emit] and no other thread is in a mutation; a thread that
    is in [emit] holds the mutex shared while nobody holds it exclusively.
    Two threads can be in [emit] at once. *)
Theorem shared_emission_policy :
  (∀ Σ : instantiation,
     locking = ktsignal_threadsafe →
     (∀ (slot : slot_type) (m : machine),
        trace (connect slot m).1
          = trace m ++ [EvLock Exclusive; EvEmplace (next_node m); EvUnlock Exclusive]) ∧
     (∀ (c : nat) (conn : ktsignal_connection) (it : nat) (m : machine),
        conns m !! c = Some conn →
        erase_func conn = Some (erase_lambda it) →
        it ∈ nodes (slots_ m) →
        trace (disconnect c m).1
          = trace m ++ [EvLock Exclusive; EvErase it; EvUnlock Exclusive]) ∧
     (∀ (cat : value_category) (a : args_type) (m : machine),
        ∃ calls,
          trace (emit cat a m).1
            = trace m ++ [EvLock Shared] ++ (invoke_event <$> calls) ++ [EvUnlock Shared]) ∧
     (∀ s : system,
        reachable s →
        ∀ i t, threads s !! i = Some t →
          (mutating (at_ t) = true →
           writer (mutex s) = true ∧ readers (mutex s) = 0 ∧
           ∀ j t', threads s !! j = Some t' →
                   emitting (at_ t') = false ∧ (mutating (at_ t') = true → j = i)) ∧
          (emitting (at_ t) = true →
           writer (mutex s) = false ∧ 1 ≤ readers (mutex s)))) ∧
  (∃ s : system (Σ := void_int ktsignal_threadsafe),
     reachable s ∧
     length (threads s) = 2 ∧
     Forall (λ t, emitting (at_ t) = true) (threads s) ∧
     readers (mutex s) = 2).
Proof.
  split.
  - intros Σ Hpol. split_and!.
    + intros slot m. rewrite connect_spec. cbn [fst trace]. by rewrite guarded_unique.
    + intros c conn it m Hc Hf Hin. rewrite (disconnect_armed c conn it m Hc Hf Hin).
      cbn [fst trace]. by rewrite guarded_unique.
    + intros cat a m. destruct (emit_calls cat a m) as (calls & Htr & _).
      exists calls. by rewrite Htr, guarded_emit.
    + intros s Hreach i t Hi. split.
      * apply (mutation_excludes Hpol s i t Hreach Hi).
      * apply (emission_shares Hpol s i t Hreach Hi).
  - eexists. split.
    + exists two_emitters. split; [apply initial_two_emitters|].
      eapply rtc_l; [eapply (step_thread _ 0); reflexivity|].
      eapply rtc_l; [eapply (step_thread _ 1); reflexivity|].
      apply rtc_refl.
    + cbn. split_and!; [done| |done]. by repeat constructor.
Qed.

Lemma shared_emission_policy_witness :
  ∃ calls,
    trace (emit (Σ := void_int ktsignal_threadsafe) rvalue 5%Z
             (abc_connected ktsignal_threadsafe)).1
      = trace (abc_connected ktsignal_threadsafe) ++
        [EvLock Shared] ++ (invoke_event <$> calls) ++ [EvUnlock Shared].
Proof.
  apply (proj1 shared_emission_policy (void_int ktsignal_threadsafe)). reflexivity.
Defined.

(** * Further properties

    The life of a connection handle, from [connect] or [scoped_connect] to
    its destruction. *)

Section HandleFacts.

Context {Σ : instantiation}.

Implicit Types (m : machine) (l : slot_container) (a : args_type).
Implicit Types (slot f : slot_type) (c n it : nat).

Lemma fresh_node_not_registered m : well_formed m → next_node m ∉ nodes (slots_ m).
Proof.
  intros [_ Hal] Hin. rewrite Forall_forall in Hal. specialize (Hal _ Hin). cbn in Hal. lia.
Qed.

Lemma unlink_last l n f : n ∉ nodes l → unlink n (l ++ [(n, f)]) = l.
Proof. intros Hn. rewrite unlink_app_here by done. apply app_nil_r. Qed.

Lemma last_node_registered l n f : n ∈ nodes (l ++ [(n, f)]).
Proof. unfold nodes. rewrite fmap_app, elem_of_app. right. by left. Qed.


(** X2.  A scoped connection that goes out of scope, not having been moved,
    takes its slot with it: the destructor returns, the registry is the one
    from before [scoped_connect], and the handle is gone.  When the caller
    has disconnected it before, the destructor finds the empty lambda and
    erases nothing more: in both cases the node is erased once. *)
Theorem scoped_connection_round_trip slot m :
  well_formed m →
  (scoped_connect slot m).2 = Ok (next_conn m) ∧
  ((destroy (next_conn m) (scoped_connect slot m).1).2 = Ok () ∧
   slots_ (destroy (next_conn m) (scoped_connect slot m).1).1 = slots_ m ∧
   conns (destroy (next_conn m) (scoped_connect slot m).1).1 !! next_conn m = None ∧
   erasures (trace (destroy (next_conn m) (scoped_connect slot m).1).1)
     = erasures (trace m) ++ [next_node m]) ∧
  ((destroy (next_conn m) (disconnect (next_conn m) (scoped_connect slot m).1).1).2 = Ok () ∧
   slots_ (destroy (next_conn m) (disconnect (next_conn m) (scoped_connect slot m).1).1).1
     = slots_ m ∧
   erasures (trace (destroy (next_conn m)
                      (disconnect (next_conn m) (scoped_connect slot m).1).1).1)
     = erasures (trace m) ++ [next_node m]).
Proof.
  intros Hwf. pose proof (fresh_node_not_registered m Hwf) as Hfresh.
  rewrite scoped_connect_spec. cbn [fst snd]. split; [done|split].
  - match goal with |- context [destroy ?c ?m1] =>
      destruct (destroy_scoped_disconnects_once c
                  {| erase_func := Some (erase_lambda (next_node m)); scoped := true |}
                  (next_node m) m1) as (Hok & Hs & Her & Hgone) end;
      [apply lookup_insert_eq|done|done|apply last_node_registered|].
    rewrite Hok, Hs, Her, Hgone. cbn [slots_ trace].
    split_and!; [done|by apply unlink_last|done|].
    by rewrite !erasures_app, !erasures_guarded, app_nil_r.
  - erewrite disconnect_armed;
      [|apply lookup_insert_eq|reflexivity|apply last_node_registered].
    cbn [fst scoped]. erewrite destroy_disarmed; [|apply lookup_insert_eq|reflexivity].
    cbn [fst snd set_conns slots_ trace]. split_and!; [done|by apply unlink_last|].
    by rewrite !erasures_app, !erasures_guarded, app_nil_r.
Qed.

(** X3.  A plain [ktsignal_connection] has no destructor of its own: when it
    goes out of scope its slot stays registered, nothing is erased, and no
    handle is left through which the slot could be disconnected. *)
Theorem dropped_connection_keeps_slot slot m :
  (destroy (next_conn m) (connect slot m).1).2 = Ok () ∧
  slots_ (destroy (next_conn m) (connect slot m).1).1 = slots_ m ++ [(next_node m, slot)] ∧
  erasures (trace (destroy (next_conn m) (connect slot m).1).1) = erasures (trace m) ∧
  conns (destroy (next_conn m) (connect slot m).1).1 !! next_conn m = None.
Proof.
  rewrite connect_spec. cbn [fst]. unfold destroy, bind, load. cbn [conns].
  rewrite lookup_insert_eq. cbn -[erasures guarded lookup delete insert].
  split_and!; [done..| |apply lookup_delete_eq].
  by rewrite erasures_app, erasures_guarded, app_nil_r.
Qed.

(** X4.  Moving a connection that holds its erase lambda hands the lambda
    to the new object and leaves the registry and the log alone: a
    [disconnect] through the new object returns and unlinks the node.  When
    the move leaves the source's [erase_func] empty, a [disconnect] through
    the source throws [std::bad_function_call] and changes nothing. *)
Theorem move_transfers_erase_action (mf : moved_from_function) c conn it m :
  conns m !! c = Some conn →
  erase_func conn = Some (erase_lambda it) →
  it ∈ nodes (slots_ m) →
  c < next_conn m →
  (move_construct mf c m).2 = Ok (next_conn m) ∧
  slots_ (move_construct mf c m).1 = slots_ m ∧
  trace (move_construct mf c m).1 = trace m ∧
  conns (move_construct mf c m).1 !! next_conn m = Some conn ∧
  (disconnect (next_conn m) (move_construct mf c m).1).2 = Ok () ∧
  slots_ (disconnect (next_conn m) (move_construct mf c m).1).1 = unlink it (slots_ m) ∧
  (mf = leaves_empty →
   disconnect c (move_construct mf c m).1
     = ((move_construct mf c m).1, Fault bad_function_call)).
Proof.
  intros Hc Hf Hin Hlt.
  assert (move_construct mf c m
          = ({| slots_ := slots_ m; next_node := next_node m;
                conns := <[next_conn m := conn]>
                           (<[c := {| erase_func := residue mf (erase_func conn);
                                      scoped := scoped conn |}]> (conns m));
                next_conn := S (next_conn m); world := world m; trace := trace m |},
             Ok (next_conn m))) as ->.
  { unfold move_construct, bind, load, store, construct. by rewrite Hc. }
  cbn [fst snd slots_ trace conns].
  split_and!; [done..|apply lookup_insert_eq| | |].
  - erewrite disconnect_armed; [done|apply lookup_insert_eq|done|done].
  - erewrite disconnect_armed; [done|apply lookup_insert_eq|done|done].
  - intros ->. eapply disconnect_moved_from; cbn [conns].
    + rewrite lookup_insert_ne by lia. apply lookup_insert_eq.
    + done.
Qed.

End HandleFacts.

(** ** Erase lambdas and the nodes they capture *)

Section ConsistencyFacts.

Context {Σ : instantiation}.

Implicit Types (m : machine) (l : slot_container) (conn : ktsignal_connection).
Implicit Types (slot : slot_type) (c n it : nat).

Lemma consistent_new_signal w : consistent (new_signal w).
Proof.
  split; [apply well_formed_new_signal|..]; unfold armed_at; cbn.
  - intros c conn Hc. by rewrite lookup_empty in Hc.
  - intros c it (conn & Hc & _). by rewrite lookup_empty in Hc.
  - intros c c' it (conn & Hc & _). by rewrite lookup_empty in Hc.
Qed.

(** Consistency looks at the registry, the handles and the two counters. *)
Lemma consistent_ext m m' :
  slots_ m' = slots_ m → next_node m' = next_node m →
  conns m' = conns m → next_conn m' = next_conn m →
  consistent m → consistent m'.
Proof.
  intros Hs Hn Hc Hk [[Hnd Hal] Hha Har Had].
  split; [split|..]; unfold armed_at in *; rewrite ?Hs, ?Hn, ?Hc, ?Hk; done.
Qed.

Lemma in_nodes_unlink n it l : n ≠ it → n ∈ nodes l → n ∈ nodes (unlink it l).
Proof.
  intros Hne. induction l as [|[n0 f] l IH]; [done|]. cbn.
  intros [-> |Hin]%elem_of_cons.
  - rewrite decide_False by done. by left.
  - destruct (decide (n0 = it)); [done|]. right. by apply IH.
Qed.

Lemma consistent_emplace (b : bool) slot (w : world_type) (tr : list event) m :
  consistent m →
  consistent
    {| slots_ := slots_ m ++ [(next_node m, slot)];
       next_node := S (next_node m);
       conns := <[next_conn m :=
                   {| erase_func := Some (erase_lambda (next_node m)); scoped := b |}]>
                (conns m);
       next_conn := S (next_conn m); world := w; trace := tr |}.
Proof.
  intros [Hwf Hha Har Had].
  pose proof (fresh_node_not_registered m Hwf) as Hfresh. destruct Hwf as [Hnd Hal].
  assert (∀ c it, armed_at
            {| slots_ := slots_ m ++ [(next_node m, slot)];
               next_node := S (next_node m);
               conns := <[next_conn m :=
                           {| erase_func := Some (erase_lambda (next_node m)); scoped := b |}]>
                        (conns m);
               next_conn := S (next_conn m); world := w; trace := tr |} c it →
          (c = next_conn m ∧ it = next_node m) ∨ (c ≠ next_conn m ∧ armed_at m c it)) as Hcase.
  { intros c it (conn & Hc & Hf). cbn [conns] in Hc.
    destruct (decide (c = next_conn m)) as [->|Hne].
    - rewrite lookup_insert_eq in Hc. simplify_eq. cbn in Hf. simplify_eq. by left.
    - rewrite lookup_insert_ne in Hc by done. right. split; [done|]. by exists conn. }
  split; [split|..]; cbn [slots_ next_node conns next_conn].
  - unfold nodes. rewrite fmap_app. apply NoDup_app. split_and!; [done| |apply NoDup_singleton].
    intros n Hn ->%list_elem_of_singleton. by apply Hfresh.
  - unfold nodes. rewrite fmap_app. apply Forall_app. split.
    + eapply Forall_impl; [exact Hal|]. cbn. lia.
    + apply Forall_singleton. cbn. lia.
  - intros c conn Hc. destruct (decide (c = next_conn m)) as [->|Hne]; [lia|].
    rewrite lookup_insert_ne in Hc by done. specialize (Hha _ _ Hc). lia.
  - intros c it [[-> ->]|[_ Harm]]%Hcase.
    + apply last_node_registered.
    + unfold nodes. rewrite fmap_app, elem_of_app. left. by eapply Har.
  - intros c c' it [[-> ->]|[Hne Harm]]%Hcase [[-> Heq]|[Hne' Harm']]%Hcase; try done.
    + by apply Har in Harm'.
    + subst it. by apply Har in Harm.
    + by eapply Had.
Qed.

Lemma consistent_erase c conn it (w : world_type) (tr : list event) m :
  consistent m →
  conns m !! c = Some conn →
  erase_func conn = Some (erase_lambda it) →
  consistent
    {| slots_ := unlink it (slots_ m); next_node := next_node m;
       conns := <[c := {| erase_func := Some empty_lambda; scoped := scoped conn |}]> (conns m);
       next_conn := next_conn m; world := w; trace := tr |}.
Proof.
  intros [[Hnd Hal] Hha Har Had] Hc Hf.
  assert (∀ c' it', armed_at
            {| slots_ := unlink it (slots_ m); next_node := next_node m;
               conns := <[c := {| erase_func := Some empty_lambda; scoped := scoped conn |}]>
                        (conns m);
               next_conn := next_conn m; world := w; trace := tr |} c' it' →
          c' ≠ c ∧ armed_at m c' it') as Hcase.
  { intros c' it' (conn' & Hc' & Hf'). cbn [conns] in Hc'.
    destruct (decide (c' = c)) as [->|Hne].
    - rewrite lookup_insert_eq in Hc'. by simplify_eq.
    - rewrite lookup_insert_ne in Hc' by done. split; [done|]. by exists conn'. }
  split; [split|..]; cbn [slots_ next_node conns next_conn].
  - by apply NoDup_unlink.
  - apply Forall_forall. intros n Hin. rewrite Forall_forall in Hal.
    apply Hal. by eapply nodes_unlink_subseteq.
  - intros c' conn' Hc'. destruct (decide (c' = c)) as [->|Hne]; [by eapply Hha|].
    rewrite lookup_insert_ne in Hc' by done. by eapply Hha.
  - intros c' it' [Hne Harm]%Hcase. apply in_nodes_unlink; [|by eapply Har].
    intros ->. apply Hne. eapply Had; [done|]. by exists conn.
  - intros c1 c2 it' [_ H1]%Hcase [_ H2]%Hcase. by eapply Had.
Qed.

(** Replacing the target of a connection by something that captures no
    iterator, or taking the connection away, keeps the rest consistent. *)
Lemma consistent_weaken m m' :
  slots_ m' = slots_ m → next_node m' = next_node m → next_conn m' = next_conn m →
  (∀ c conn, conns m' !! c = Some conn → is_Some (conns m !! c)) →
  (∀ c it, armed_at m' c it → armed_at m c it) →
  consistent m → consistent m'.
Proof.
  intros Hs Hn Hk Hsub Harm [[Hnd Hal] Hha Har Had].
  split; [split|..]; rewrite ?Hs, ?Hn, ?Hk; try done.
  - intros c conn [conn0 Hc]%Hsub. by eapply Hha.
  - intros c it H%Harm. by eapply Har.
  - intros c c' it H%Harm H'%Harm. by eapply Had.
Qed.

Lemma consistent_disconnect c m : consistent m → consistent (disconnect c m).1.
Proof.
  intros Hcons. destruct (conns m !! c) as [conn|] eqn:Hc;
    [|by rewrite disconnect_dead].
  destruct (erase_func conn) as [[it|]|] eqn:Hf.
  - assert (it ∈ nodes (slots_ m)) as Hin.
    { eapply (armed_registered m Hcons c). by exists conn. }
    rewrite (disconnect_armed c conn it m Hc Hf Hin). by apply consistent_erase.
  - by rewrite (disconnect_disarmed c conn).
  - by rewrite (disconnect_moved_from c conn).
Qed.

Lemma consistent_release c m :
  consistent m → consistent (set_conns (delete c (conns m)) m).
Proof.
  apply consistent_weaken; try done.
  - intros c' conn Hc'. cbn in Hc'. destruct (decide (c' = c)) as [->|Hne].
    + by rewrite lookup_delete_eq in Hc'.
    + rewrite lookup_delete_ne in Hc' by done. by eexists.
  - intros c' it (conn & Hc' & Hf). cbn in Hc'. destruct (decide (c' = c)) as [->|Hne].
    + by rewrite lookup_delete_eq in Hc'.
    + rewrite lookup_delete_ne in Hc' by done. by exists conn.
Qed.

Lemma consistent_destroy c m : consistent m → consistent (destroy c m).1.
Proof.
  intros Hcons. unfold destroy, bind, load, noexcept, release.
  destruct (conns m !! c) as [conn|] eqn:Hc; [|done].
  destruct (scoped conn).
  - pose proof (consistent_disconnect c m Hcons) as Hd.
    destruct (disconnect c m) as [m' [[]|[]]]; cbn [fst] in *; try done.
    by apply consistent_release.
  - by apply consistent_release.
Qed.

Lemma consistent_move c m :
  consistent m → consistent (move_construct leaves_empty c m).1.
Proof.
  intros Hcons. unfold move_construct, bind, load, store, construct.
  destruct (conns m !! c) as [conn|] eqn:Hc; [|done]. cbn.
  pose proof (handles_allocated m Hcons c conn Hc) as Hlt.
  destruct Hcons as [[Hnd Hal] Hha Har Had].
  assert (∀ c' it, armed_at
            (set_next_conn (S (next_conn m))
               (set_conns (<[next_conn m := conn]>
                             (<[c := {| erase_func := None; scoped := scoped conn |}]> (conns m)))
                  (set_conns (<[c := {| erase_func := None; scoped := scoped conn |}]> (conns m)) m)))
            c' it →
          (c' = next_conn m ∧ armed_at m c it) ∨
          (c' ≠ next_conn m ∧ c' ≠ c ∧ armed_at m c' it)) as Hcase.
  { intros c' it (conn' & Hc' & Hf'). cbn in Hc'.
    destruct (decide (c' = next_conn m)) as [->|Hne].
    - rewrite lookup_insert_eq in Hc'. simplify_eq. left. split; [done|]. by exists conn'.
    - rewrite lookup_insert_ne in Hc' by done.
      destruct (decide (c' = c)) as [->|Hne'].
      + rewrite lookup_insert_eq in Hc'. by simplify_eq.
      + rewrite lookup_insert_ne in Hc' by done. right. split_and!; [done..|]. by exists conn'. }
  split; [split|..]; cbn; try done.
  - intros c' conn' Hc'. destruct (decide (c' = next_conn m)) as [->|Hne]; [lia|].
    rewrite lookup_insert_ne in Hc' by done.
    destruct (decide (c' = c)) as [->|Hne']; [lia|].
    rewrite lookup_insert_ne in Hc' by done. specialize (Hha _ _ Hc'). lia.
  - intros c' it [[_ Harm]|(_ & _ & Harm)]%Hcase; by eapply Har.
  - intros c1 c2 it [[-> H1]|(Hn1 & Hc1 & H1)]%Hcase [[-> H2]|(Hn2 & Hc2 & H2)]%Hcase;
      try done.
    + exfalso. apply Hc2. by eapply Had.
    + exfalso. apply Hc1. by eapply Had.
    + by eapply Had.
Qed.

Lemma consistent_handle_step (o : handle_op) m :
  consistent m → consistent (handle_step o m).1.
Proof.
  intros Hcons. destruct o as [slot|slot|c|c|c]; cbn [handle_step]; unfold bind.
  - rewrite connect_spec. cbn [fst ret]. by apply consistent_emplace.
  - rewrite scoped_connect_spec. cbn [fst ret]. by apply consistent_emplace.
  - by apply consistent_disconnect.
  - pose proof (consistent_move c m Hcons).
    by destruct (move_construct leaves_empty c m) as [m' [?|?]].
  - by apply consistent_destroy.
Qed.

Lemma consistent_handle_run (ops : list handle_op) m :
  consistent m → consistent (handle_run ops m).1.
Proof.
  revert m. induction ops as [|o ops IH]; intros m Hcons; [done|].
  cbn [handle_run]. unfold bind. pose proof (consistent_handle_step o m Hcons) as Hstep.
  destruct (handle_step o m) as [m' [[]|flt]]; cbn [fst] in *; [by apply IH|done].
Qed.

(** On a consistent machine an operation is undefined only when the handle
    it uses does not exist. *)
Lemma handle_step_defined (o : handle_op) m :
  consistent m →
  (handle_step o m).2 = Fault undefined_behaviour →
  ∃ c, handle_used o = Some c ∧ conns m !! c = None.
Proof.
  intros Hcons Hub. destruct o as [slot|slot|c|c|c]; cbn [handle_step handle_used] in *.
  - unfold bind in Hub. by rewrite connect_spec in Hub.
  - unfold bind in Hub. by rewrite scoped_connect_spec in Hub.
  - exists c. split; [done|]. destruct (conns m !! c) as [conn|] eqn:Hc; [|done].
    exfalso. destruct (erase_func conn) as [[it|]|] eqn:Hf.
    + assert (it ∈ nodes (slots_ m)) as Hin.
      { eapply (armed_registered m Hcons c). by exists conn. }
      by rewrite (disconnect_armed c conn it m Hc Hf Hin) in Hub.
    + by rewrite (disconnect_disarmed c conn) in Hub.
    + by rewrite (disconnect_moved_from c conn) in Hub.
  - exists c. split; [done|]. destruct (conns m !! c) as [conn|] eqn:Hc; [|done].
    exfalso. unfold move_construct, bind, load, store, construct in Hub.
    by rewrite Hc in Hub.
  - exists c. split; [done|]. destruct (conns m !! c) as [conn|] eqn:Hc; [|done].
    exfalso. unfold destroy, bind, load, noexcept, release in Hub. rewrite Hc in Hub.
    destruct (scoped conn); [|done].
    destruct (erase_func conn) as [[it|]|] eqn:Hf.
    + assert (it ∈ nodes (slots_ m)) as Hin.
      { eapply (armed_registered m Hcons c). by exists conn. }
      by rewrite (disconnect_armed c conn it m Hc Hf Hin) in Hub.
    + by rewrite (disconnect_disarmed c conn) in Hub.
    + by rewrite (disconnect_moved_from c conn) in Hub.
Qed.

(** X6.  Every program of connects, scoped connects, disconnects, moves
    (which leave their source empty) and destructions that starts on a new
    signal keeps this invariant: the erase
    lambda of a connection captures the iterator of a node that is still
    registered, and no two connections capture the same node.  Hence, after
    any such program, an operation erases through a valid iterator or not at
    all: it is undefined only when it uses a handle that does not exist. *)
Theorem handle_programs_never_erase_twice (ops : list handle_op) (w : world_type) :
  consistent (handle_run ops (new_signal w)).1 ∧
  ∀ o, (handle_step o (handle_run ops (new_signal w)).1).2 = Fault undefined_behaviour →
       ∃ c, handle_used o = Some c ∧ conns (handle_run ops (new_signal w)).1 !! c = None.
Proof.
  pose proof (consistent_handle_run ops (new_signal w) (consistent_new_signal w)) as Hcons.
  split; [done|]. intros o. by apply handle_step_defined.
Qed.

End ConsistencyFacts.

(** ** Emission on a signal that has grown *)

Section EmissionFacts.

Context {Σ : instantiation}.

Implicit Types (m : machine) (l : slot_container) (a : args_type).
Implicit Types (slot : slot_type) (cat : value_category).

Lemma emit_loop_app l1 l2 cat a m :
  emit_loop (l1 ++ l2) cat a m = (a' <- emit_loop l1 cat a;; emit_loop l2 cat a') m.
Proof.
  revert a m. induction l1 as [|[n f] l1 IH]; intros a m; [done|].
  cbn [app emit_loop]. unfold bind.
  destruct (invoke n f (initialisation FuncSig_param cat) a m) as [m' [x|flt]]; [|done].
  by rewrite IH.
Qed.

(** The loop looks at the world only: on two machines with the same world
    it gives the same result, the same world and the same calls. *)
Lemma emit_loop_observed l cat a m m' :
  world m = world m' →
  (emit_loop l cat a m).2 = (emit_loop l cat a m').2 ∧
  world (emit_loop l cat a m).1 = world (emit_loop l cat a m').1 ∧
  ∃ calls,
    invocations (trace (emit_loop l cat a m).1) = invocations (trace m) ++ calls ∧
    invocations (trace (emit_loop l cat a m').1) = invocations (trace m') ++ calls.
Proof.
  revert a m m'. induction l as [|[n f] l IH]; intros a m m' Hw.
  - cbn. split_and!; [done..|]. exists []. by rewrite !app_nil_r.
  - cbn [emit_loop]. unfold bind.
    destruct (result (f a (world m))) as [r|e] eqn:Hr.
    + rewrite (invoke_returns _ _ _ _ m r Hr). rewrite Hw in Hr.
      rewrite (invoke_returns _ _ _ _ m' r Hr). cbn [fst]. rewrite Hw.
      match goal with |- (emit_loop l cat ?a1 ?m1).2 = (emit_loop l cat _ ?m2).2 ∧ _ =>
        destruct (IH a1 m1 m2 eq_refl) as (H2 & Hw2 & calls & Ht & Ht') end.
      split_and!; [done..|]. exists ((n, a) :: calls). rewrite Ht, Ht'. cbn [trace].
      rewrite !invocations_app. cbn. by rewrite <- !app_assoc.
    + rewrite (invoke_throws _ _ _ _ m e Hr). rewrite Hw in Hr.
      rewrite (invoke_throws _ _ _ _ m' e Hr). cbn [fst snd world trace]. rewrite Hw.
      split_and!; [done..|]. exists [(n, a)]. by rewrite !invocations_app.
Qed.

(** What [emit] shows to its caller is what its loop shows. *)
Lemma emit_observed cat a m :
  (emit cat a m).2 = (emit_loop (slots_ m) cat a m).2 ∧
  world (emit cat a m).1 = world (emit_loop (slots_ m) cat a m).1 ∧
  invocations (trace (emit cat a m).1)
    = invocations (trace (emit_loop (slots_ m) cat a m).1) ∧
  slots_ (emit cat a m).1 = slots_ m.
Proof.
  unfold emit, lock_guard. destruct (acquires _ _) as [x|]; cycle 1.
  { split_and!; try done.
    by destruct (emit_loop_calls (slots_ m) cat a m) as (? & _ & (? & _) & _). }
  cbn [slots_ log].
  destruct (emit_loop_observed (slots_ m) cat a (log (EvLock x) m) m eq_refl)
    as (Hr & Hw & calls & Ht & Ht').
  destruct (emit_loop_calls (slots_ m) cat a (log (EvLock x) m)) as (? & _ & (Hs & _) & _).
  destruct (emit_loop (slots_ m) cat a (log (EvLock x) m)) as [m' r].
  cbn [fst snd log world trace slots_] in *.
  split_and!; try done.
  rewrite invocations_app, Ht, Ht', invocations_app. cbn. by rewrite !app_nil_r.
Qed.

Lemma emit_on_grown_signal (scoped_ : bool) slot cat a m :
  let m1 :=
    {| slots_ := slots_ m ++ [(next_node m, slot)];
       next_node := S (next_node m);
       conns := <[next_conn m :=
                   {| erase_func := Some (erase_lambda (next_node m)); scoped := scoped_ |}]>
                (conns m);
       next_conn := S (next_conn m);
       world := world m;
       trace := trace m ++ guarded unique_lock [EvEmplace (next_node m)] |} in
  ∃ calls,
    invocations (trace (emit cat a m).1) = invocations (trace m) ++ calls ∧
    match (emit cat a m).2 with
    | Ok a' =>
        let eff := slot a' (world (emit cat a m).1) in
        (emit cat a m1).2
          = match result eff with
            | Returned _ => Ok (args_after (initialisation FuncSig_param cat) a' eff)
            | Thrown e => Fault (slot_exception e)
            end ∧
        world (emit cat a m1).1 = world_after eff ∧
        invocations (trace (emit cat a m1).1)
          = invocations (trace m) ++ calls ++ [(next_node m, a')]
    | Fault flt =>
        (emit cat a m1).2 = Fault flt ∧
        world (emit cat a m1).1 = world (emit cat a m).1 ∧
        invocations (trace (emit cat a m1).1) = invocations (trace m) ++ calls
    end.
Proof.
  intros m1.
  destruct (emit_observed cat a m) as (Hr & Hw & Hi & _).
  destruct (emit_observed cat a m1) as (Hr1 & Hw1 & Hi1 & _).
  rewrite Hr, Hw, Hi, Hr1, Hw1, Hi1.
  change (slots_ m1) with (slots_ m ++ [(next_node m, slot)]).
  rewrite emit_loop_app. unfold bind.
  destruct (emit_loop_observed (slots_ m) cat a m1 m eq_refl)
    as (Hr2 & Hw2 & calls & Ht & Ht').
  assert (invocations (trace m1) = invocations (trace m)) as Hm1.
  { subst m1. cbn [trace]. rewrite invocations_app, invocations_guarded. cbn.
    by rewrite app_nil_r. }
  rewrite Hm1 in Ht. clear Hm1.
  exists calls. split; [done|].
  destruct (emit_loop (slots_ m) cat a m1) as [m1' r1].
  destruct (emit_loop (slots_ m) cat a m) as [m' r].
  cbn [fst snd] in *. subst r1. destruct r as [a'|flt]; [|done].
  cbn [emit_loop]. unfold bind, invoke, ret. cbn zeta. rewrite Hw2.
  destruct (result (slot a' (world m'))); cbn [fst snd world trace set_world log];
    split_and!; try done; rewrite invocations_app, Ht; cbn; by rewrite <- app_assoc.
Qed.

(** X7.  [emit] after [connect]: the new slot is called last.  If the
    emission on the signal as it was returns, the emission on the grown
    signal makes the same calls, then calls the new slot with the argument
    object as the other slots left it, in the world as they left it; if it
    throws, the emission on the grown signal throws the same exception after
    the same calls, and the new slot is not called. *)
Theorem emit_after_connect slot cat a m :
  ∃ calls,
    invocations (trace (emit cat a m).1) = invocations (trace m) ++ calls ∧
    match (emit cat a m).2 with
    | Ok a' =>
        let eff := slot a' (world (emit cat a m).1) in
        (emit cat a (connect slot m).1).2
          = match result eff with
            | Returned _ => Ok (args_after (initialisation FuncSig_param cat) a' eff)
            | Thrown e => Fault (slot_exception e)
            end ∧
        world (emit cat a (connect slot m).1).1 = world_after eff ∧
        invocations (trace (emit cat a (connect slot m).1).1)
          = invocations (trace m) ++ calls ++ [(next_node m, a')]
    | Fault flt =>
        (emit cat a (connect slot m).1).2 = Fault flt ∧
        world (emit cat a (connect slot m).1).1 = world (emit cat a m).1 ∧
        invocations (trace (emit cat a (connect slot m).1).1) = invocations (trace m) ++ calls
    end.
Proof. rewrite connect_spec. apply emit_on_grown_signal. Qed.

(** X8.  The member overloads of [connect] and [scoped_connect] register a
    slot that calls the member function on the object that [ptr] points to:
    on a signal that had no slot, [emit] makes this one call, with the
    caller's argument, and returns or throws as the member function does. *)
Theorem member_slot_calls_its_object {C : Type} (ptr : C)
    (func : C → args_type → world_type → slot_effect) cat a m :
  slots_ m = [] →
  ∀ m1, m1 = (connect_member ptr func m).1 ∨ m1 = (scoped_connect_member ptr func m).1 →
    (emit cat a m1).2
      = match result (func ptr a (world m)) with
        | Returned _ =>
            Ok (args_after (initialisation FuncSig_param cat) a (func ptr a (world m)))
        | Thrown e => Fault (slot_exception e)
        end ∧
    world (emit cat a m1).1 = world_after (func ptr a (world m)) ∧
    invocations (trace (emit cat a m1).1) = invocations (trace m) ++ [(next_node m, a)].
Proof.
  intros Hempty m1 Hm1.
  assert ((emit cat a m).2 = Ok a ∧ world (emit cat a m).1 = world m ∧
          invocations (trace (emit cat a m).1) = invocations (trace m)) as (Hr & Hw & Hi).
  { destruct (emit_observed cat a m) as (Hr & Hw & Hi & _).
    rewrite Hr, Hw, Hi, Hempty. done. }
  unfold connect_member, scoped_connect_member in Hm1.
  rewrite connect_spec, scoped_connect_spec in Hm1. cbn [fst] in Hm1.
  destruct Hm1 as [-> | ->].
  - destruct (emit_on_grown_signal false (bound ptr func) cat a m)
      as (calls & Hc & Hrest).
    rewrite Hi in Hc. rewrite Hr, Hw in Hrest.
    assert (calls = []) as -> by (by eapply app_inv_head; rewrite app_nil_r).
    done.
  - destruct (emit_on_grown_signal true (bound ptr func) cat a m)
      as (calls & Hc & Hrest).
    rewrite Hi in Hc. rewrite Hr, Hw in Hrest.
    assert (calls = []) as -> by (by eapply app_inv_head; rewrite app_nil_r).
    done.
Qed.

End EmissionFacts.

(** ** Iterators over the registry *)

Section IteratorFacts.

Context {Σ : instantiation}.

Implicit Types (m : machine) (l : slot_container) (a : args_type).
Implicit Types (slot : slot_type) (n it : nat) (r : iterate).

Lemma not_in_prefix n f l1 l2 : NoDup (nodes (l1 ++ (n, f) :: l2)) → n ∉ nodes l1.
Proof.
  unfold nodes. rewrite fmap_app. intros (_ & Hdisj & _)%NoDup_app Hin.
  apply (Hdisj n Hin). by left.
Qed.

Lemma slot_at_unlink_ne n it l : n ≠ it → slot_at n (unlink it l) = slot_at n l.
Proof.
  intros Hne. induction l as [|[n0 f] l IH]; [done|]. cbn.
  destruct (decide (n0 = it)) as [->|Hn0].
  - by rewrite decide_False by done.
  - cbn. by rewrite IH.
Qed.

Lemma slot_at_not_registered n l : n ∉ nodes l → slot_at n l = None.
Proof.
  induction l as [|[n0 f] l IH]; [done|]. cbn. intros Hn.
  rewrite decide_False by (intros ->; apply Hn; by left).
  apply IH. intros Hin. apply Hn. by right.
Qed.

Lemma successor_not_registered n l : n ∉ nodes l → successor n l = None.
Proof.
  induction l as [|[n0 f] l IH]; [done|]. cbn. intros Hn.
  rewrite decide_False by (intros ->; apply Hn; by left).
  apply IH. intros Hin. apply Hn. by right.
Qed.

Lemma slot_at_app_old n l l' : n ∈ nodes l → slot_at n (l ++ l') = slot_at n l.
Proof.
  induction l as [|[n0 f] l IH]; [by intros ?%elem_of_nil|]. cbn.
  intros [-> |Hin]%elem_of_cons.
  - by rewrite !decide_True.
  - destruct (decide (n0 = n)); [done|]. by apply IH.
Qed.

(** What [operator*] yields, from the slot that its iterator points to. *)
Lemma deref_result (i : signal_iterator) (alive : bool) a m :
  (deref i alive a m).2
    = match iter_ i with
      | at_node n =>
          match slot_at n (slots_ m) with
          | Some f =>
              if alive then
                match result (f a (world m)) with
                | Returned x =>
                    Ok (args_after (initialisation FuncSig_param lvalue) a (f a (world m)), x)
                | Thrown e => Fault (slot_exception e)
                end
              else Fault undefined_behaviour
          | None => Fault undefined_behaviour
          end
      | past_the_end => Fault undefined_behaviour
      end.
Proof.
  unfold deref, lock_guard.
  destruct (acquires _ _); cbn [slots_ log]; destruct (iter_ i) as [n|]; try done;
    destruct (slot_at n (slots_ m)); try done; destruct alive; try done;
    unfold invoke; cbn [world log]; by destruct (result _).
Qed.

Lemma advance_from l1 l2 (k : nat) m :
  slots_ m = l1 ++ l2 → NoDup (nodes (l1 ++ l2)) → k ≤ length l2 →
  advance k {| iter_ := first_position l2 |} m
    = (m, Ok {| iter_ := first_position (drop k l2) |}).
Proof.
  revert l1 l2. induction k as [|k IH]; intros l1 l2 Hl Hnd Hk; [by rewrite drop_0|].
  destruct l2 as [|[n f] l2]; [cbn in Hk; lia|].
  cbn [advance first_position]. unfold bind, incr. cbn [iter_].
  rewrite Hl, successor_app_here by (by eapply not_in_prefix).
  cbn [drop skipn].
  apply (IH (l1 ++ [(n, f)]) l2); rewrite <- ?app_assoc; cbn in *; [done|done|lia].
Qed.

(** X9.  Walking the range of [emit_iterate]: [begin()] advanced [k] times
    by [operator++], for [k] up to the number of slots, stands at the
    [k]-th slot, which is the one that [operator*] calls, and compares equal
    to [end()] exactly when [k] is the number of slots; the walk takes no
    lock and calls no slot (the machine is as before).  The post-increment
    returns the position it started from.  At [end()], [operator*] and both
    increments are undefined. *)
Theorem iteration_walks_the_registry r (k : nat) (alive : bool) a m :
  well_formed m →
  k ≤ length (slots_ m) →
  ∃ i last,
    (first <- begin_ r;; advance k first) m = (m, Ok i) ∧
    end_ r m = (m, Ok last) ∧
    (iterator_eq i last = true ↔ k = length (slots_ m)) ∧
    iterator_ne i last = negb (iterator_eq i last) ∧
    (∀ n f, slots_ m !! k = Some (n, f) →
       iter_ i = at_node n ∧ slot_at n (slots_ m) = Some f ∧
       ∃ i', (first <- begin_ r;; advance (S k) first) m = (m, Ok i') ∧
             post_incr i m = (m, Ok (i, i'))) ∧
    (k = length (slots_ m) →
       (deref i alive a m).2 = Fault undefined_behaviour ∧
       (incr i m).2 = Fault undefined_behaviour ∧
       (post_incr i m).2 = Fault undefined_behaviour).
Proof.
  intros [Hnd _] Hk.
  exists {| iter_ := first_position (drop k (slots_ m)) |}, {| iter_ := past_the_end |}.
  assert (∀ j, j ≤ length (slots_ m) →
            (first <- begin_ r;; advance j first) m
              = (m, Ok {| iter_ := first_position (drop j (slots_ m)) |})) as Hwalk.
  { intros j Hj. unfold bind, begin_. by apply (advance_from [] (slots_ m)). }
  split_and!; [by apply Hwalk|done| | | |].
  - unfold iterator_eq. cbn [iter_]. rewrite bool_decide_eq_true. split.
    + intros Hend. destruct (drop k (slots_ m)) as [|[n f] l] eqn:Hd; [|done].
      apply drop_nil_inv in Hd. lia.
    + intros ->. by rewrite drop_all.
  - unfold iterator_ne, iterator_eq. by rewrite bool_decide_not.
  - intros n f Hkth.
    pose proof (take_drop_middle _ _ _ Hkth) as Hsplit.
    assert (drop k (slots_ m) = (n, f) :: drop (S k) (slots_ m)) as Hd
      by (by apply drop_S).
    assert (n ∉ nodes (take k (slots_ m))) as Hn.
    { eapply not_in_prefix. by rewrite Hsplit. }
    rewrite Hd. cbn [iter_ first_position]. split_and!; [done| |].
    + rewrite <- Hsplit. by apply slot_at_app_here.
    + exists {| iter_ := first_position (drop (S k) (slots_ m)) |}. split.
      * apply Hwalk. apply lookup_lt_Some in Hkth. lia.
      * unfold post_incr, bind, incr. cbn [iter_].
        rewrite <- Hsplit at 1. by rewrite successor_app_here.
  - intros ->. rewrite drop_all. cbn [first_position].
    rewrite deref_result. unfold post_incr, bind, incr. by cbn.
Qed.

(** X10.  The iterators of a [std::list] stay valid while other nodes come
    and go, and so do the iterators of the range: after [disconnect] has
    erased a node, [operator*] and [operator++] on an iterator to this node
    are undefined, while an iterator to any other node yields what it
    yielded before; after a [connect], every iterator into the registry
    yields what it yielded before. *)
Theorem disconnect_invalidates_its_iterator_only (c : nat) conn it (alive : bool) a m :
  well_formed m →
  conns m !! c = Some conn →
  erase_func conn = Some (erase_lambda it) →
  it ∈ nodes (slots_ m) →
  (deref {| iter_ := at_node it |} alive a (disconnect c m).1).2
    = Fault undefined_behaviour ∧
  (incr {| iter_ := at_node it |} (disconnect c m).1).2 = Fault undefined_behaviour ∧
  (∀ n, n ≠ it →
     (deref {| iter_ := at_node n |} alive a (disconnect c m).1).2
       = (deref {| iter_ := at_node n |} alive a m).2) ∧
  (∀ slot n, n ∈ nodes (slots_ m) →
     (deref {| iter_ := at_node n |} alive a (connect slot m).1).2
       = (deref {| iter_ := at_node n |} alive a m).2).
Proof.
  intros [Hnd _] Hc Hf Hin. rewrite (disconnect_armed c conn it m Hc Hf Hin). cbn [fst].
  pose proof (unlink_removes it (slots_ m) Hnd) as Hgone.
  split_and!.
  - rewrite deref_result. cbn [iter_ slots_]. by rewrite slot_at_not_registered.
  - unfold incr. cbn [iter_ slots_]. by rewrite successor_not_registered.
  - intros n Hne. rewrite !deref_result. cbn [iter_ slots_ world].
    by rewrite slot_at_unlink_ne.
  - intros slot n Hn. rewrite connect_spec, !deref_result. cbn [fst iter_ slots_ world].
    by rewrite slot_at_app_old.
Qed.

Lemma emit_loop_call_one_by_one l a m :
  (emit_loop l lvalue a m).1 = (call_one_by_one l a m).1 ∧
  (emit_loop l lvalue a m).2
    = match (call_one_by_one l a m).2 with
      | Ok x => Ok x.1
      | Fault flt => Fault flt
      end ∧
  ∀ x, (call_one_by_one l a m).2 = Ok x → length x.2 = length l.
Proof.
  revert a m. induction l as [|[n f] l IH]; intros a m.
  - cbn. split_and!; [done..|]. intros x [= <-]. done.
  - cbn [emit_loop]. unfold bind.
    destruct (result (f a (world m))) as [x0|e] eqn:Hr.
    + rewrite (call_one_by_one_cons_returns _ _ _ _ _ x0 Hr).
      rewrite (invoke_returns _ _ _ _ _ x0 Hr). cbn zeta. cbn [fst snd].
      match goal with |- context [call_one_by_one l ?a1 ?m1] =>
        destruct (IH a1 m1) as (H1 & H2 & H3) end.
      rewrite H1, H2. split_and!; [done| |].
      * by destruct (call_one_by_one _ _ _).2.
      * intros x Hx. destruct (call_one_by_one _ _ _).2 as [y|] eqn:Hy; [|done].
        simplify_eq. cbn. f_equal. by apply H3.
    + rewrite (call_one_by_one_cons_throws _ _ _ _ _ e Hr).
      rewrite (invoke_throws _ _ _ _ _ e Hr). done.
Qed.

(** X11.  [emit] with an lvalue argument is the loop over [emit_iterate]
    of that lvalue run to its end, with the results dropped: on a well-formed signal both
    make the same calls and leave the same world and the same argument
    object, or throw the same exception; the loop yields one result for
    each slot. *)
Theorem emit_is_iteration_without_results (budget : nat) a m :
  well_formed m →
  length (slots_ m) ≤ budget →
  (emit lvalue a m).2
    = match (range_for budget (emit_iterate caller_object a) m).2 with
      | Ok x => Ok x.1
      | Fault flt => Fault flt
      end ∧
  world (emit lvalue a m).1 = world (range_for budget (emit_iterate caller_object a) m).1 ∧
  invocations (trace (emit lvalue a m).1)
    = invocations (trace (range_for budget (emit_iterate caller_object a) m).1) ∧
  slots_ (emit lvalue a m).1 = slots_ (range_for budget (emit_iterate caller_object a) m).1 ∧
  ∀ x, (range_for budget (emit_iterate caller_object a) m).2 = Ok x → length x.2 = length (slots_ m).
Proof.
  intros [Hnd _] Hbudget.
  destruct (emit_observed lvalue a m) as (Hr & Hw & Hi & Hs).
  destruct (emit_loop_call_one_by_one (slots_ m) a m) as (H1 & H2 & H3).
  destruct (iterate_loop_refines budget [] (slots_ m) a m m eq_refl Hnd
              (same_observations_refl m)) as (Hres & Hs' & Hw' & Hi').
  rewrite take_ge in Hres, Hs', Hw', Hi' by done.
  assert (range_for budget (emit_iterate caller_object a) m
          = iterate_loop budget {| iter_ := first_position (slots_ m) |}
              {| iter_ := past_the_end |} true a m) as -> by done.
  rewrite Hr, Hw, Hi, Hs, H1, H2, Hres, Hw', Hi'. split_and!; try done.
  rewrite Hs', <- H1.
  by destruct (emit_loop_calls (slots_ m) lvalue a m) as (? & _ & (? & _) & _).
Qed.

Lemma iterate_loop_trace (budget : nat) l1 l2 a m :
  slots_ m = l1 ++ l2 →
  NoDup (nodes (l1 ++ l2)) →
  ∃ calls,
    trace (iterate_loop budget {| iter_ := first_position l2 |}
             {| iter_ := past_the_end |} true a m).1
      = trace m ++
        concat ((λ x, guarded (emit_locker locking) [invoke_event x]) <$> calls) ∧
    calls.*1 `prefix_of` nodes l2 ∧
    length calls ≤ budget.
Proof.
  revert l1 l2 a m. induction budget as [|budget IH]; intros l1 l2 a m Hl Hnd.
  { exists []. cbn. rewrite app_nil_r. split_and!; [done|apply prefix_nil|done]. }
  destruct l2 as [|[n f] l2].
  { exists []. cbn. rewrite app_nil_r. split_and!; [done|apply prefix_nil|lia]. }
  cbn [first_position].
  assert (n ∉ nodes l1) as Hn by (by eapply not_in_prefix).
  assert (slot_at n (slots_ m) = Some f) as Hf by (rewrite Hl; by apply slot_at_app_here).
  destruct (deref_spec {| iter_ := at_node n |} n f a m eq_refl Hf)
    as (Hres & _ & Htr & Hsl & _).
  destruct (deref {| iter_ := at_node n |} true a m) as [m' [x|flt]] eqn:Hderef;
    cbn [fst snd] in Hres, Htr, Hsl.
  - rewrite (iterate_loop_at_node budget n true a m m' _ (first_position l2) Hderef)
      by (rewrite Hsl, Hl; by apply successor_app_here).
    cbn zeta. cbn [fst].
    destruct (IH (l1 ++ [(n, f)]) l2 x.1 m') as (calls & Ht & Hpre & Hlen).
    { rewrite Hsl, Hl. by rewrite <- app_assoc. }
    { by rewrite <- app_assoc. }
    exists ((n, a) :: calls). rewrite Ht, Htr. cbn [fmap list_fmap concat].
    split_and!; [by rewrite <- !app_assoc|by apply prefix_cons|cbn; lia].
  - rewrite (iterate_loop_at_node_throws budget n true a m m' _ Hderef). cbn [fst].
    exists [(n, a)]. rewrite Htr. cbn [fmap list_fmap concat]. rewrite app_nil_r.
    split_and!; [done|apply prefix_cons, prefix_nil|cbn; lia].
Qed.

(** X12.  The loop over [emit_iterate], of arguments that outlive the range,
    takes the lock of [emit] anew around each call of a slot and holds none
    between two elements, where [emit] takes it once around all the
    calls. *)
Theorem iteration_locks_around_each_call (budget : nat) r cat a m :
  well_formed m →
  refers_to r = caller_object →
  (∃ calls,
     trace (range_for budget r m).1
       = trace m ++
         concat ((λ x, guarded (emit_locker locking) [invoke_event x]) <$> calls) ∧
     calls.*1 `prefix_of` nodes (slots_ m) ∧
     length calls ≤ budget) ∧
  (∃ calls,
     trace (emit cat a m).1
       = trace m ++ guarded (emit_locker locking) (invoke_event <$> calls) ∧
     calls.*1 `prefix_of` nodes (slots_ m)).
Proof.
  intros [Hnd _] Hr. split.
  - unfold range_for, bind, begin_, end_, ret. rewrite Hr.
    by apply (iterate_loop_trace budget [] (slots_ m)).
  - destruct (emit_calls cat a m) as (calls & Htr & _ & Hpre & _). by exists calls.
Qed.

End IteratorFacts.

(** ** Threads under either policy with a mutex *)

Section GuardedThreads.

Context {Σ : instantiation}.
Hypothesis with_mutex : thread_safe locking = true.

Implicit Types (s : system) (t : thread) (ths : list thread).
Implicit Types (mx : mutex_state) (m : machine).

Lemma schedule_steps (order : list nat) s : rtc system_step s (schedule order s).
Proof.
  revert s. induction order as [|i order IH]; intros s; [apply rtc_refl|].
  cbn [schedule]. eapply rtc_trans; [|apply IH].
  unfold run_thread. destruct (threads s !! i) as [t|] eqn:Hi; [|apply rtc_refl].
  destruct (thread_step t (shared s) (mutex s)) as [[[t' m'] mx']|] eqn:Hstep;
    [|apply rtc_refl].
  apply rtc_once. by econstructor.
Qed.

(** What one statement of a thread does to the mutex, against how the thread
    holds it before and after. *)
Lemma thread_step_lock t m mx t' m' mx' :
  thread_step t m mx = Some (t', m', mx') →
  (holds_shared (at_ t) = true → 1 ≤ readers mx) →
  (holds_exclusive (at_ t) = true → writer mx = true) →
  (writer mx = true → readers mx = 0) →
  readers mx' + Nat.b2n (holds_shared (at_ t))
    = readers mx + Nat.b2n (holds_shared (at_ t')) ∧
  Nat.b2n (writer mx') + Nat.b2n (holds_exclusive (at_ t))
    = Nat.b2n (writer mx) + Nat.b2n (holds_exclusive (at_ t')) ∧
  (writer mx' = true → readers mx' = 0).
Proof using with_mutex.
  intros Hstep He Hm Hw. destruct t as [pc rest], mx as [wr rd].
  unfold thread_step, enter, try_lock, unlock, mutex_type, emit_locker in Hstep.
  unfold holds_shared, holds_exclusive in *.
  rewrite with_mutex in Hstep. destruct (emit_thread_safe locking);
  cbn in *;
  repeat (case_match; simplify_eq; cbn in * );
    repeat match goal with
    | H : _ && _ = true |- _ => apply andb_true_iff in H as [? ?]
    | H : negb _ = true |- _ => apply negb_true_iff in H
    | H : bool_decide _ = true |- _ => apply bool_decide_eq_true in H
    | H : true = true → _ |- _ => specialize (H eq_refl)
    end;
    simplify_eq; cbn in *; split_and!; try lia; try done; intros; simplify_eq; lia.
Qed.

Lemma lock_invariant_initial s : initial s → lock_invariant s.
Proof.
  intros [Hmx Hths]. unfold lock_invariant. rewrite Hmx. cbn.
  rewrite !count_initial; try done;
    unfold holds_shared, holds_exclusive; cbn; by destruct (emit_thread_safe locking).
Qed.

Lemma lock_invariant_step s s' :
  lock_invariant s → system_step s s' → lock_invariant s'.
Proof using with_mutex.
  intros (Hrd & Hwr & Hex) [i t t' m' mx' Hi Hstep].
  destruct (thread_step_lock t (shared s) (mutex s) t' m' mx' Hstep) as (Hrd' & Hwr' & Hex').
  - intros He. rewrite Hrd. by eapply count_positive.
  - intros Hm. pose proof (count_positive holds_exclusive _ _ _ Hi Hm) as Hpos.
    rewrite Hwr in Hpos. destruct (writer (mutex s)); [done|lia].
  - done.
  - pose proof (count_insert holds_shared _ _ _ t' Hi).
    pose proof (count_insert holds_exclusive _ _ _ t' Hi).
    unfold lock_invariant. cbn [mutex threads].
    change (if writer mx' then 1 else 0) with (Nat.b2n (writer mx')).
    change (if writer (mutex s) then 1 else 0) with (Nat.b2n (writer (mutex s))) in Hwr.
    split_and!; [lia|lia|done].
Qed.

Lemma lock_invariant_reachable s : reachable s → lock_invariant s.
Proof using with_mutex.
  intros (s0 & Hinit & Hsteps). apply lock_invariant_initial in Hinit.
  induction Hsteps as [|s1 s2 s3 Hstep _ IH]; [done|].
  apply IH. by eapply lock_invariant_step.
Qed.

(** A thread that holds the mutex exclusively is alone with it. *)
Lemma exclusive_holder_alone s i t :
  lock_invariant s →
  threads s !! i = Some t → holds_exclusive (at_ t) = true →
  writer (mutex s) = true ∧ readers (mutex s) = 0 ∧
  ∀ j t', threads s !! j = Some t' →
          holds_shared (at_ t') = false ∧ (holds_exclusive (at_ t') = true → j = i).
Proof.
  intros (Hrd & Hwr & Hex) Hi Hm.
  pose proof (count_positive holds_exclusive _ _ _ Hi Hm) as Hpos.
  assert (writer (mutex s) = true) as Hw.
  { rewrite Hwr in Hpos. destruct (writer (mutex s)); [done|lia]. }
  split_and!; [done|by apply Hex|]. intros j t' Hj. split.
  - destruct (holds_shared (at_ t')) eqn:He; [|done].
    pose proof (count_positive holds_shared _ _ _ Hj He). rewrite <- Hrd, (Hex Hw) in *. lia.
  - intros Hm'. eapply (count_at_most_one holds_exclusive); try done.
    rewrite Hwr, Hw. done.
Qed.

Lemma count_none P ths :
  Forall (λ t, P (at_ t) = false) ths → count P ths = 0.
Proof. induction 1 as [|t ths Ht _ IH]; [done|]. cbn. by rewrite Ht, IH. Qed.

(** X13.  Under the policy of exclusive emission ([thread_safe] and
    [emit_thread_safe]), [emit] takes the mutex as [connect] and the erase
    lambda do: in every state that threads calling [connect], [disconnect]
    and [emit] can reach, a thread that is in [emit] or in a mutation holds
    the mutex exclusively, and no other thread is in [emit] or in a
    mutation. *)
Theorem exclusive_emission_policy s (i : nat) t :
  emit_thread_safe locking = true →
  reachable s →
  threads s !! i = Some t →
  emitting (at_ t) = true ∨ mutating (at_ t) = true →
  writer (mutex s) = true ∧ readers (mutex s) = 0 ∧
  ∀ j t', threads s !! j = Some t' →
          emitting (at_ t') = true ∨ mutating (at_ t') = true → j = i.
Proof using with_mutex.
  intros Hexcl Hreach Hi Hin.
  assert (∀ w, emitting w = true ∨ mutating w = true → holds_exclusive w = true) as Hhold.
  { intros w [Hw|Hw]; unfold holds_exclusive; rewrite Hexcl, Hw; cbn;
      [apply orb_true_r|done]. }
  destruct (exclusive_holder_alone s i t (lock_invariant_reachable s Hreach) Hi (Hhold _ Hin))
    as (Hw & Hr & Hothers).
  split_and!; [done..|]. intros j t' Hj Hin'.
  by apply (Hothers j t' Hj), Hhold.
Qed.

(** X14.  Under both policies with a mutex no lock is leaked: in every
    reachable state in which no thread is inside [connect], an erase lambda
    or [emit], nobody holds the mutex, also when calls have been left by
    an exception of a slot. *)
Theorem mutex_free_between_calls s :
  reachable s →
  Forall (λ t, mutating (at_ t) = false ∧ emitting (at_ t) = false) (threads s) →
  mutex s = unlocked.
Proof using with_mutex.
  intros Hreach Hout. destruct (lock_invariant_reachable s Hreach) as (Hrd & Hwr & _).
  rewrite count_none in Hrd, Hwr.
  - destruct (mutex s) as [wr rd]. cbn in *. subst rd. by destruct wr.
  - eapply Forall_impl; [exact Hout|]. cbn. intros t0 [Hm He].
    unfold holds_exclusive. rewrite Hm, He. by rewrite andb_false_r.
  - eapply Forall_impl; [exact Hout|]. cbn. intros t0 [Hm He].
    unfold holds_shared. rewrite He. by rewrite andb_false_r.
Qed.

End GuardedThreads.

(** ** The iterator of [emit] while other threads run *)

Section EmissionUnderLock.

Context {Σ : instantiation}.
Hypothesis with_mutex : thread_safe locking = true.

Implicit Types (s : system) (t : thread) (ths : list thread).
Implicit Types (mx : mutex_state) (m : machine) (l : slot_container).

Lemma first_position_registered l (n : nat) :
  first_position l = at_node n → n ∈ nodes l.
Proof. destruct l as [|[n0 f] l]; [done|]. intros [= ->]. by left. Qed.

Lemma successor_registered (n n' : nat) l :
  successor n l = Some (at_node n') → n' ∈ nodes l.
Proof.
  induction l as [|[n0 f] l IH]; [done|]. cbn.
  destruct (decide (n0 = n)) as [->|Hne].
  - intros [= Hfirst]. right. by apply first_position_registered.
  - intros Hs. right. by apply IH.
Qed.

Lemma registered_slot_at (n : nat) l : n ∈ nodes l → is_Some (slot_at n l).
Proof.
  induction l as [|[n0 f] l IH]; [by intros ?%elem_of_nil|]. cbn.
  destruct (decide (n0 = n)); [by eexists|].
  intros [-> |Hin]%elem_of_cons; [done|by apply IH].
Qed.

Lemma registered_successor (n : nat) l : n ∈ nodes l → is_Some (successor n l).
Proof.
  induction l as [|[n0 f] l IH]; [by intros ?%elem_of_nil|]. cbn.
  destruct (decide (n0 = n)); [by eexists|].
  intros [-> |Hin]%elem_of_cons; [done|by apply IH].
Qed.

(** A thread in [emit] whose iterator is valid has a next statement. *)
Lemma emitting_thread_steps t m mx :
  emitting (at_ t) = true → iterator_valid m (at_ t) →
  is_Some (thread_step t m mx).
Proof.
  destruct t as [[| | | | |[n|] cat a|e|] rest]; try done; intros _ Hvalid;
    unfold thread_step; cbn [at_ todo].
  - cbn in Hvalid.
    destruct (registered_slot_at n _ Hvalid) as [f ->].
    destruct (registered_successor n _ Hvalid) as [next ->].
    unfold invoke. by destruct (result _).
  - by destruct (unlock _ _ _).
  - by destruct (unlock _ _ _).
Qed.

(** A statement changes the registry only in a mutation, and leaves the
    thread with a valid iterator. *)
Lemma thread_step_registry t m mx t' m' mx' :
  thread_step t m mx = Some (t', m', mx') →
  (slots_ m' = slots_ m ∨ mutating (at_ t) = true) ∧ iterator_valid m' (at_ t').
Proof.
  intros Hstep. destruct t as [pc rest].
  unfold thread_step, enter, try_lock, unlock, invoke, erase, emplace_back, store, construct
    in Hstep.
  destruct pc as [|slot|it|c it|c|[n|] cat a|e|flt]; cbn in Hstep.
  - repeat (case_match; simplify_eq; cbn in * ); split; try (by left); try done;
      by apply first_position_registered.
  - simplify_eq. split; [by right|done].
  - repeat (case_match; simplify_eq; cbn in * ); split; try (by left); done.
  - repeat (case_match; simplify_eq; cbn in * ). split; [by right|done].
  - repeat (case_match; simplify_eq; cbn in * ); split; try (by right); done.
  - repeat (case_match; simplify_eq; cbn in * ); split; try (by left); try done.
    by eapply successor_registered.
  - repeat (case_match; simplify_eq; cbn in * ); split; try (by left); done.
  - repeat (case_match; simplify_eq; cbn in * ); split; try (by left); done.
  - done.
Qed.

Lemma iterators_valid_step s s' :
  lock_invariant s →
  Forall (λ t, iterator_valid (shared s) (at_ t)) (threads s) →
  system_step s s' →
  Forall (λ t, iterator_valid (shared s') (at_ t)) (threads s').
Proof.
  intros Hlock Hvalid [i t t' m' mx' Hi Hstep]. cbn [shared threads].
  destruct (thread_step_registry _ _ _ _ _ _ Hstep) as [Hreg Hnew].
  apply Forall_insert; [|done].
  destruct Hreg as [Hsame|Hmut].
  - eapply Forall_impl; [exact Hvalid|]. cbn. intros t0.
    unfold iterator_valid. by rewrite Hsame.
  - assert (holds_exclusive (at_ t) = true) as Hhold
      by (unfold holds_exclusive; by rewrite Hmut).
    destruct (exclusive_holder_alone s i t Hlock Hi Hhold) as (_ & _ & Hothers).
    apply Forall_lookup. intros j t0 Hj.
    destruct (Hothers j t0 Hj) as [Hsh Hex].
    destruct (at_ t0) as [| | | | |[n|] cat a| |] eqn:Hat; try done.
    exfalso. unfold holds_shared, holds_exclusive in Hsh, Hex.
    cbn in Hsh, Hex. destruct (emit_thread_safe locking); [|done].
    specialize (Hex eq_refl) as ->. rewrite Hi in Hj. simplify_eq.
    by rewrite Hat in Hmut.
Qed.

Lemma iterators_valid_reachable s :
  reachable s → Forall (λ t, iterator_valid (shared s) (at_ t)) (threads s).
Proof using with_mutex.
  intros (s0 & Hinit & Hsteps).
  pose proof (lock_invariant_initial s0 Hinit) as Hlock.
  assert (Forall (λ t, iterator_valid (shared s0) (at_ t)) (threads s0)) as Hvalid.
  { destruct Hinit as [_ Hout]. eapply Forall_impl; [exact Hout|]. cbn.
    by intros t0 ->. }
  clear Hinit. induction Hsteps as [|s1 s2 s3 Hstep _ IH]; [done|].
  apply IH.
  - by eapply lock_invariant_step.
  - by eapply iterators_valid_step.
Qed.

End EmissionUnderLock.

(** X15.  Under both policies with a mutex the loop of [emit] never meets a
    dangling iterator, whatever the other threads do: in every reachable
    state the iterator of a thread in [emit] points into the registry (or
    past its end), and the thread's next statement is defined.  Under
    [ktsignal], which has no mutex, a [disconnect] in another thread can
    erase the node that the loop stands at, and the next statement of the
    loop is undefined. *)
Theorem emit_meets_no_dangling_iterator :
  (∀ Σ : instantiation,
     thread_safe locking = true →
     ∀ (s : system) (i : nat) (t : thread),
       reachable s →
       threads s !! i = Some t →
       emitting (at_ t) = true →
       iterator_valid (shared s) (at_ t) ∧
       is_Some (thread_step t (shared s) (mutex s))) ∧
  (∃ (s : system (Σ := void_int ktsignal)) (t : thread) (cat : value_category)
     (a : args_type) (n : nat),
     reachable s ∧
     threads s !! 0 = Some t ∧
     at_ t = in_emit (at_node n) cat a ∧
     (n ∉ nodes (slots_ (shared s))) ∧
     thread_step t (shared s) (mutex s) = None).
Proof.
  split.
  - intros Σ Hmx s i t Hreach Hi He.
    pose proof (iterators_valid_reachable Hmx s Hreach) as Hvalid.
    rewrite Forall_lookup in Hvalid. specialize (Hvalid i t Hi).
    split; [done|]. by apply emitting_thread_steps.
  - exists (schedule [0; 1; 1] (emitter_and_disconnector ktsignal)),
      {| at_ := in_emit (Σ := void_int ktsignal) (at_node 0) rvalue 5%Z; todo := [] |},
      rvalue, (5%Z : @args_type (void_int ktsignal)), 0.
    assert (nodes (slots_ (shared (schedule [0; 1; 1] (emitter_and_disconnector ktsignal))))
            = [1; 2]) as Hnodes by (vm_compute; reflexivity).
    split_and!.
    + exists (emitter_and_disconnector ktsignal). split; [|apply schedule_steps].
      split; [done|]. by repeat constructor.
    + vm_compute. reflexivity.
    + reflexivity.
    + rewrite Hnodes. by intros [?|[?|?%elem_of_nil]%elem_of_cons]%elem_of_cons.
    + vm_compute. reflexivity.
Qed.

(** ** Instantiations without a mutex *)

Section NoMutex.

Context {Σ : instantiation}.
Hypothesis no_mutex : thread_safe locking = false.

Implicit Types (s : system) (t : thread) (mx : mutex_state) (m : machine).

Lemma guarded_empty_mutex (k : lock_kind) (evs : list event) : guarded k evs = evs.
Proof using no_mutex. unfold guarded, mutex_type. by rewrite no_mutex. Qed.

Lemma thread_step_empty_mutex t m mx t' m' mx' :
  thread_step t m mx = Some (t', m', mx') → mx' = mx.
Proof using no_mutex.
  intros Hstep. destruct t as [pc rest].
  unfold thread_step, enter, try_lock, unlock, mutex_type in Hstep.
  rewrite no_mutex in Hstep. cbn in Hstep.
  repeat (case_match; simplify_eq; cbn in * ); done.
Qed.

(** X16.  With [thread_safe = false] the mutex is an [empty_mutex], whatever
    [emit_thread_safe] is: [connect] and [emit] log no lock, the mutex is
    never held in any state that threads can reach, and a thread that is
    about to call [connect], [emit], or [disconnect] on a live connection is
    never made to wait. *)
Theorem empty_mutex_never_blocks :
  (∀ slot m, trace (connect slot m).1 = trace m ++ [EvEmplace (next_node m)]) ∧
  (∀ cat a m, ∃ calls, trace (emit cat a m).1 = trace m ++ (invoke_event <$> calls)) ∧
  (∀ s, reachable s →
     mutex s = unlocked ∧
     ∀ (i : nat) t next rest,
       threads s !! i = Some t →
       at_ t = outside → todo t = next :: rest →
       (∀ c, next = call_disconnect c → is_Some (conns (shared s) !! c)) →
       is_Some (thread_step t (shared s) (mutex s))).
Proof using no_mutex.
  split_and!.
  - intros slot m. by rewrite connect_spec, guarded_empty_mutex.
  - intros cat a m. destruct (emit_calls cat a m) as (calls & Htr & _).
    exists calls. by rewrite Htr, guarded_empty_mutex.
  - intros s (s0 & [Hmx _] & Hsteps). split.
    + induction Hsteps as [|s1 s2 s3 Hstep _ IH]; [done|].
      apply IH. destruct Hstep as [j t0 t' m' mx' Hj Hstep]. cbn.
      by rewrite (thread_step_empty_mutex _ _ _ _ _ _ Hstep).
    + intros i t next rest Hi Hat Htodo Hlive. destruct t as [pc td].
      cbn in Hat, Htodo. subst.
      unfold thread_step, enter, try_lock, mutex_type. cbn. rewrite no_mutex. cbn.
      destruct next as [slot|c|cat a]; [done| |done].
      destruct (Hlive c eq_refl) as [conn ->].
      by destruct (erase_func conn) as [[it|]|].
Qed.

End NoMutex.

(** ** The further properties on the signal of the scenario *)

Section FurtherScenarios.

Local Open Scope Z_scope.
Local Open Scope string_scope.
Local Open Scope list_scope.


Lemma scoped_connection_round_trip_witness :
  (scoped_connect (recorder "D") (abc_connected ktsignal)).2 = Ok 3%nat.
Proof.
  exact (proj1 (scoped_connection_round_trip (Σ := void_int ktsignal) (recorder "D")
                  (abc_connected ktsignal) (well_formed_abc_connected ktsignal))).
Defined.

Lemma move_transfers_erase_action_witness :
  (move_construct leaves_empty 1 (abc_connected ktsignal)).2 = Ok 3%nat.
Proof.
  refine (proj1 (move_transfers_erase_action (Σ := void_int ktsignal) leaves_empty 1
                   {| erase_func := Some (erase_lambda 1); scoped := false |} 1%nat
                   (abc_connected ktsignal) _ _ _ _)).
  - vm_compute. reflexivity.
  - reflexivity.
  - vm_compute. right. left.
  - vm_compute. lia.
Defined.

Lemma member_slot_calls_its_object_witness :
  world (emit (Σ := void_int ktsignal) rvalue 5
           (connect_member "object" (λ name, recorder name)
              (new_signal (Σ := void_int ktsignal) [])).1).1
    = [("object", 5)].
Proof.
  exact (proj1 (proj2
           (member_slot_calls_its_object (Σ := void_int ktsignal) "object"
              (λ name, recorder name) rvalue 5 (new_signal (Σ := void_int ktsignal) [])
              eq_refl _ (or_introl eq_refl)))).
Defined.

Lemma iteration_walks_the_registry_witness :
  ∃ i last,
    (first <- begin_ (emit_iterate (Σ := int_int ktsignal) caller_object 7);; advance 2 first)
      (three_answers ktsignal) = (three_answers ktsignal, Ok i) ∧
    end_ (emit_iterate (Σ := int_int ktsignal) caller_object 7) (three_answers ktsignal)
      = (three_answers ktsignal, Ok last) ∧
    (iterator_eq i last = true ↔ 2%nat = length (slots_ (three_answers ktsignal))) ∧
    iterator_ne i last = negb (iterator_eq i last) ∧
    (∀ n f, slots_ (three_answers ktsignal) !! 2%nat = Some (n, f) →
       iter_ i = at_node n ∧ slot_at n (slots_ (three_answers ktsignal)) = Some f ∧
       ∃ i', (first <- begin_ (emit_iterate (Σ := int_int ktsignal) caller_object 7);; advance 3 first)
               (three_answers ktsignal) = (three_answers ktsignal, Ok i') ∧
             post_incr i (three_answers ktsignal) = (three_answers ktsignal, Ok (i, i'))) ∧
    (2%nat = length (slots_ (three_answers ktsignal)) →
       (deref (Σ := int_int ktsignal) i true 7 (three_answers ktsignal)).2
         = Fault undefined_behaviour ∧
       (incr i (three_answers ktsignal)).2 = Fault undefined_behaviour ∧
       (post_incr i (three_answers ktsignal)).2 = Fault undefined_behaviour).
Proof.
  apply (iteration_walks_the_registry (Σ := int_int ktsignal)
           (emit_iterate (Σ := int_int ktsignal) caller_object 7) 2 true 7
           (three_answers ktsignal)).
  - apply well_formed_run, well_formed_new_signal.
  - vm_compute. lia.
Defined.

Lemma disconnect_invalidates_its_iterator_only_witness :
  (deref (Σ := int_int ktsignal) {| iter_ := at_node 1 |} true 7
     (disconnect 1 (three_answers ktsignal)).1).2 = Fault undefined_behaviour.
Proof.
  refine (proj1 (disconnect_invalidates_its_iterator_only (Σ := int_int ktsignal) 1
                   {| erase_func := Some (erase_lambda 1); scoped := false |} 1%nat true 7
                   (three_answers ktsignal) _ _ _ _)).
  - apply well_formed_run, well_formed_new_signal.
  - vm_compute. reflexivity.
  - reflexivity.
  - vm_compute. right. left.
Defined.

Lemma emit_is_iteration_without_results_witness :
  world (emit (Σ := int_int ktsignal) lvalue 7 (three_answers ktsignal)).1
    = world (range_for 3 (emit_iterate (Σ := int_int ktsignal) caller_object 7) (three_answers ktsignal)).1.
Proof.
  refine (proj1 (proj2 (emit_is_iteration_without_results (Σ := int_int ktsignal) 3 7
                          (three_answers ktsignal) _ _))).
  - apply well_formed_run, well_formed_new_signal.
  - vm_compute. lia.
Defined.

Lemma iteration_locks_around_each_call_witness :
  ∃ calls,
    trace (range_for 2 (emit_iterate (Σ := int_int ktsignal_threadsafe) caller_object 7)
             (three_answers ktsignal_threadsafe)).1
      = trace (three_answers ktsignal_threadsafe) ++
        concat ((λ x, guarded (emit_locker ktsignal_threadsafe) [invoke_event x]) <$> calls) ∧
    calls.*1 `prefix_of` nodes (slots_ (three_answers ktsignal_threadsafe)) ∧
    (length calls ≤ 2)%nat.
Proof.
  refine (proj1 (iteration_locks_around_each_call (Σ := int_int ktsignal_threadsafe) 2
                   (emit_iterate (Σ := int_int ktsignal_threadsafe) caller_object 7) lvalue 7
                   (three_answers ktsignal_threadsafe) _ eq_refl)).
  apply well_formed_run, well_formed_new_signal.
Defined.

Lemma exclusive_emission_policy_witness :
  writer (mutex (schedule [0%nat] (emitter_and_connector ktsignal_threadsafe_emit))) = true.
Proof.
  refine (proj1 (exclusive_emission_policy (Σ := void_int ktsignal_threadsafe_emit) eq_refl
                   (schedule [0%nat] (emitter_and_connector ktsignal_threadsafe_emit)) 0
                   {| at_ := in_emit (Σ := void_int ktsignal_threadsafe_emit)
                                       (at_node 0) rvalue 5;
                      todo := [] |} eq_refl _ _ _)).
  - exists (emitter_and_connector ktsignal_threadsafe_emit).
    split; [|apply schedule_steps]. split; [reflexivity|]. by repeat constructor.
  - vm_compute. reflexivity.
  - left. reflexivity.
Defined.

Lemma mutex_free_between_calls_witness :
  mutex (schedule [0%nat; 0%nat; 0%nat; 0%nat; 0%nat]
           (emitter_and_connector ktsignal_threadsafe)) = unlocked.
Proof.
  refine (mutex_free_between_calls (Σ := void_int ktsignal_threadsafe) eq_refl _ _ _).
  - exists (emitter_and_connector ktsignal_threadsafe).
    split; [|apply schedule_steps]. split; [reflexivity|]. by repeat constructor.
  - vm_compute. by repeat constructor.
Defined.

Lemma empty_mutex_never_blocks_witness :
  mutex (schedule [0%nat; 1%nat] (emitter_and_connector ktsignal)) = unlocked.
Proof.
  refine (proj1 (proj2 (proj2 (empty_mutex_never_blocks (Σ := void_int ktsignal) eq_refl))
                   (schedule [0%nat; 1%nat] (emitter_and_connector ktsignal)) _)).
  exists (emitter_and_connector ktsignal).
  split; [|apply schedule_steps]. split; [reflexivity|]. by repeat constructor.
Defined.

End FurtherScenarios.
